(** * package-quality: the quality estimator of [lib/estimation.js]

    A shallow embedding of [lib/estimation.js] and the properties of its
    scoring pipeline.

    Conventions of the embedding.
    - JavaScript numbers are exact rationals ([Qc]) extended with the two
      infinities and NaN: rounding and the sign of zero are not modelled.
      Every zero the program divides by is a counter or a sum started at
      the literal [0], hence a positive zero. In binary64 [1 - 1 / n] is
      exactly 1 from [n = 2^54] on, and the same number for neighbouring
      counts from about [1.5e8] on: a bound of the download score is
      therefore stated closed, and no strict order is stated between the
      scores of two download totals.
    - The asynchronous functions (callback style, chained by
      [async.waterfall]) are computations of type [run A]: what the final
      callback receives, together with the trace of the requests sent and
      of the messages logged at error level, in program order. Messages
      logged at debug level are left out.
    - The payloads have the shapes the endpoints document: an issue list,
      a download series, registry metadata. A body is represented by its
      text together with what [JSON.parse] makes of it. Besides the
      documented shape, the body of each service may be the JSON value
      [null]; the issue body may be an object that is not a list, the
      values of which [forEach] visits as it visits the items of a list,
      so that an item may lack a [state]; and a download sample may lack
      its count. Items that are [null], states that are not strings and
      counts that are not non-negative integers are not modelled.
    - Strings are sequences of 8-bit characters. *)

From Stdlib Require Import QArith Qcanon.
From stdpp Require Import base decidable option list numbers strings gmap.

Local Open Scope string_scope.
Local Open Scope list_scope.

(** ** JavaScript numbers *)

Module Num.

Inductive number : Type :=
| Finite (q : Qc)
| PosInf
| NegInf
| NaN.

#[global] Instance number_eq_dec : EqDecision number.
Proof. solve_decision. Defined.

Definition zero : number := Finite 0%Qc.
Definition one : number := Finite 1%Qc.

Definition of_Z (z : Z) : number := Finite (Qc_of_Z z).
Definition of_nat (n : nat) : number := of_Z (Z.of_nat n).
Definition of_N (n : N) : number := of_Z (Z.of_N n).

(** Unary minus. *)
Definition neg (a : number) : number :=
  match a with
  | Finite x => Finite (- x)%Qc
  | PosInf => NegInf
  | NegInf => PosInf
  | NaN => NaN
  end.

(** [a + b]. *)
Definition add (a b : number) : number :=
  match a, b with
  | NaN, _ | _, NaN => NaN
  | Finite x, Finite y => Finite (x + y)%Qc
  | PosInf, NegInf | NegInf, PosInf => NaN
  | PosInf, _ | _, PosInf => PosInf
  | NegInf, _ | _, NegInf => NegInf
  end.

(** [a - b]. *)
Definition sub (a b : number) : number := add a (neg b).

(** The sign of a number that is not NaN, as a comparison with zero. *)
Definition sign (a : number) : comparison :=
  match a with
  | Finite x => (x ?= 0)%Qc
  | PosInf => Gt
  | NegInf => Lt
  | NaN => Eq
  end.

(** [a * b]: zero times an infinity is NaN. *)
Definition mul (a b : number) : number :=
  match a, b with
  | NaN, _ | _, NaN => NaN
  | Finite x, Finite y => Finite (x * y)%Qc
  | _, _ =>
      match sign a, sign b with
      | Eq, _ | _, Eq => NaN
      | Gt, Gt | Lt, Lt => PosInf
      | _, _ => NegInf
      end
  end.

(** [a / b], the divisor zero being the positive zero. *)
Definition div (a b : number) : number :=
  match a, b with
  | NaN, _ | _, NaN => NaN
  | Finite x, Finite y =>
      if decide (y = 0%Qc) then
        match (x ?= 0)%Qc with
        | Eq => NaN
        | Gt => PosInf
        | Lt => NegInf
        end
      else Finite (x / y)%Qc
  | Finite _, _ => zero
  | _, Finite y =>
      match sign a, (y ?= 0)%Qc with
      | Gt, Lt | Lt, (Eq | Gt) => NegInf
      | _, _ => PosInf
      end
  | _, _ => NaN
  end.

(** [a > b]: false as soon as one side is NaN. *)
Definition gt (a b : number) : bool :=
  match a, b with
  | NaN, _ | _, NaN => false
  | Finite x, Finite y => bool_decide (y < x)%Qc
  | PosInf, PosInf => false
  | PosInf, _ => true
  | _, NegInf => match a with NegInf => false | _ => true end
  | _, _ => false
  end.

End Num.

Export Num.

(** ** Strings

    The string methods the program calls. [startsWith], [substringFrom]
    and [substringUpTo] come from the [prototypes] package, which the
    program loads to extend [String.prototype]; [split] and [indexOf] are
    the language's own. *)

Module Str.

(** [s.indexOf(str)]: where [str] first occurs in [s], if it does. *)
Definition indexOf (s str : string) : option nat := String.index 0 str s.

(** [s.slice(from)]. *)
Definition slice_from (s : string) (from : nat) : string :=
  String.substring from (String.length s - from) s.

(** [s.slice(0, to)]. *)
Definition slice_to (s : string) (to : nat) : string :=
  String.substring 0 to s.

(** [s.startsWith(str)]. *)
Definition startsWith (s str : string) : bool := String.prefix str s.

(** [s.substringFrom(str)]: what follows the first occurrence of [str],
    the empty string when [str] does not occur. *)
Definition substringFrom (s str : string) : string :=
  match indexOf s str with
  | Some i => slice_from s (i + String.length str)
  | None => ""
  end.

(** [s.substringUpTo(str)]: what precedes the first occurrence of [str],
    the whole of [s] when [str] does not occur. *)
Definition substringUpTo (s str : string) : string :=
  match indexOf s str with
  | Some i => slice_to s i
  | None => s
  end.

(** [s.split(sep)] for a separator that is not empty: the pieces between
    the occurrences of [sep], in order; a string without [sep] is its
    only piece. [piece] holds the current piece, last character first,
    and [skip] counts the characters of a separator still to pass. *)
Fixpoint split_from (sep : string) (skip : nat) (piece : string) (s : string)
    : list string :=
  match s with
  | EmptyString => [String.rev piece]
  | String c rest =>
      match skip with
      | S k => split_from sep k piece rest
      | O =>
          if String.prefix sep s then
            String.rev piece :: split_from sep (String.length sep - 1) "" rest
          else split_from sep 0 (String c piece) rest
      end
  end.

Definition split (s sep : string) : list string := split_from sep 0 "" s.

(** [s.endsWith(str)]. *)
Definition endsWith (s str : string) : bool :=
  String.prefix (String.rev str) (String.rev s).

End Str.

(** ** Data model *)

(** [{ type, url }]: a field is [None] when it is absent. *)
Record RepoDescriptor : Type := {
  type : option string;
  url : option string
}.

(** The entry of a package, as far as the estimator reads it. *)
Record PackageEntry : Type := {
  name : option string;
  repository : option RepoDescriptor
}.

(** What [extractRepoInfo] returns: [null], the empty object [{}], or
    [{ valid: true, owner, name }]. *)
Inductive RepoInfo : Type :=
| InfoNull
| InfoEmpty
| InfoValid (owner name : string).

(** A value that the loop over the issues visits: an issue of the
    tracker, of which only the [state] is read, or any other value, the
    [state] of which is [undefined] ([None]). *)
Record Issue : Type := { state : option string }.

(** One sample of the download series: [{ downloads }], a count; [None]
    when the sample has no such field. *)
Record DownloadSample : Type := { sample_downloads : option N }.

(** The parsed reply of the download statistics: the [downloads] series
    is [None] when the reply has no such key. *)
Record DownloadsResult : Type := {
  downloads : option (list DownloadSample)
}.

(** The [versions] object of the registry metadata maps each published
    version to its metadata, which the estimator never reads. *)
Abbreviation VersionSet := (gmap string unit).

(** Parsed registry metadata; [versions] is [None] when absent. *)
Record RegistryResponse : Type := {
  versions : option VersionSet
}.

(** The outcome of [JSON.parse(body)]: an exception or a value. *)
Inductive parsed (A : Type) : Type :=
| SyntaxError (exception : string)
| Json (value : A).
Arguments SyntaxError {A} exception.
Arguments Json {A} value.

Record Body (A : Type) : Type := {
  text : string;
  json : parsed A
}.
Arguments text {A} _.
Arguments json {A} _.

Record Response : Type := { statusCode : N }.

(** What [request] hands to its callback: [(error, response, body)].
    [error] and [response] are [None] when null or undefined. *)
Record Reply (A : Type) : Type := {
  error : option string;
  response : option Response;
  body : Body A
}.
Arguments error {A} _.
Arguments response {A} _.
Arguments body {A} _.

(** Everything outside the program: the three services, each answering
    the URL requested; the two dates [moment] formats as [YYYY-MM-DD];
    and [JSON.stringify] on entries. A parsed body is [None] when it is
    the JSON value [null]. A parsed issue body that is not [null] is the
    list of the values that [forEach] visits: the items of an array or,
    with the [forEach] that the [prototypes] package gives every object,
    the values of the properties of an object. *)
Record World : Type := {
  issues_api : string -> Reply (option (list Issue));
  downloads_api : string -> Reply (option DownloadsResult);
  registry_api : string -> Reply (option RegistryResponse);
  now : string;
  aYearAgo : string;
  JSON_stringify : option PackageEntry -> string
}.

(** ** Computations

    A computation ends when its callback is called with a value
    ([Done]), when it is called with an error ([Failed]), or when an
    exception is thrown that nothing catches ([Thrown]). *)

Inductive endpoint : Type := GithubIssues | NpmStat | NpmRegistry.

Inductive event : Type :=
| Request (service : endpoint) (uri : string)
| LogError (message : string) (arguments : list string).

Inductive result (A : Type) : Type :=
| Done (value : A)
| Failed (err : string)
| Thrown (exception : string).
Arguments Done {A} value.
Arguments Failed {A} err.
Arguments Thrown {A} exception.

Record run (A : Type) : Type := Run {
  outcome : result A;
  trace : list event
}.
Arguments Run {A} outcome trace.
Arguments outcome {A} _.
Arguments trace {A} _.

#[global] Instance endpoint_eq_dec : EqDecision endpoint.
Proof. solve_decision. Defined.
#[global] Instance event_eq_dec : EqDecision event.
Proof. solve_decision. Defined.
#[global] Instance result_eq_dec {A} `{EqDecision A} : EqDecision (result A).
Proof. solve_decision. Defined.
#[global] Instance run_eq_dec {A} `{EqDecision A} : EqDecision (run A).
Proof. solve_decision. Defined.
#[global] Instance RepoInfo_eq_dec : EqDecision RepoInfo.
Proof. solve_decision. Defined.

#[global] Instance run_ret : MRet run := fun A a => Run (Done a) [].

#[global] Instance run_bind : MBind run := fun A B f m =>
  match outcome m with
  | Done a => Run (outcome (f a)) (trace m ++ trace (f a))
  | Failed e => Run (Failed e) (trace m)
  | Thrown e => Run (Thrown e) (trace m)
  end.

(** [callback(err)]. *)
Definition fail {A} (err : string) : run A := Run (Failed err) [].

(** [throw]: here always a [TypeError], of reading a property of [null]
    or [undefined], or of applying [in] to [null]. *)
Definition throw {A} (exception : string) : run A := Run (Thrown exception) [].

Definition TypeError (property value : string) : string :=
  "TypeError: Cannot read property '" +:+ property +:+ "' of " +:+ value.

Definition TypeError_in (key value : string) : string :=
  "TypeError: Cannot use 'in' operator to search for '" +:+ key +:+ "' in " +:+ value.

(** [log.error(message, ...arguments)]. *)
Definition log_error (message : string) (arguments : list string) : run unit :=
  Run (Done tt) [LogError message arguments].

(** [request(uri, callback)]: the request leaves, the reply comes. Of
    a request the trace keeps the service and the URL, not the headers
    nor the credentials. *)
Definition request {A} (service : endpoint) (api : string -> Reply A)
    (uri : string) : run (Reply A) :=
  Run (Done (api uri)) [Request service uri].

(** [list.forEach(f)] where [f] updates the variables [s] it closes over. *)
Fixpoint forEach {A S} (l : list A) (f : A -> S -> run S) (s : S) : run S :=
  match l with
  | [] => mret s
  | x :: rest => f x s ≫= forEach rest f
  end.

(** ** The program *)

(** [!s] for a property that holds a string when present: undefined,
    null and the empty string are falsy. *)
Definition falsy (s : option string) : bool :=
  match s with
  | Some (String _ _) => false
  | _ => true
  end.

(** [versions.countProperties()], from the [prototypes] package: the
    number of properties of the object. *)
Definition countProperties (versions : VersionSet) : nat := size versions.

(** [extractPieces(remaining, initial)] (lines 247-260). The second
    branch of the inner match cannot be reached: the list has
    [initial + 2] pieces there. *)
Definition extractPieces (remaining : string) (initial : nat) : run RepoInfo :=
  let pieces := Str.split remaining "/" in
  if decide (length pieces ≠ initial + 2) then
    log_error "Invalid URL %s" [remaining];;
    mret InfoEmpty
  else
    match pieces !! initial, pieces !! (initial + 1) with
    | Some owner, Some last =>
        mret (InfoValid owner (Str.substringUpTo last ".git"))
    | _, _ => throw (TypeError "substringUpTo" "undefined")
    end.

(** [extractRepoInfo(repo)] (lines 223-245). *)
Definition extractRepoInfo (repo : option RepoDescriptor) : run RepoInfo :=
  match repo with
  | None => mret InfoNull
  | Some repo =>
      if falsy (type repo) || falsy (url repo) then mret InfoNull
      else
        let repo_type := default "" (type repo) in
        let repo_url := default "" (url repo) in
        if decide (repo_type ≠ "git") then
          log_error "Invalid repo type: %s" [repo_type];;
          mret InfoNull
        else if Str.startsWith repo_url "git@github.com:" then
          extractPieces (Str.substringFrom repo_url "git@github.com:") 0
        else if Str.startsWith repo_url "git://github.com:" then
          extractPieces (Str.substringFrom repo_url "git://github.com:") 0
        else extractPieces repo_url 3
  end.

(** The counters of the loop over the issues. *)
Record counters : Type := Counters {
  open : nat;
  closed : nat;
  total : nat
}.

(** The body of the loop over the issues (lines 197-212). *)
Definition count_issue (issue : Issue) (c : counters) : run counters :=
  let c := Counters (open c) (closed c) (total c + 1) in
  if decide (state issue = Some "open") then
    mret (Counters (open c + 1) (closed c) (total c))
  else if decide (state issue = Some "closed") then
    mret (Counters (open c) (closed c + 1) (total c))
  else
    log_error "Invalid state %s" [default "undefined" (state issue)];;
    mret c.

(** The URL of the issues of a repository (line 176). *)
Definition issuesUrl (owner name : string) : string :=
  "https://api.github.com/repos/" +:+ owner +:+ "/" +:+ name
  +:+ "/issues?per_page=1000&state=all".

(** [estimateRepo(repo, callback)] (lines 167-221). *)
Definition estimateRepo (w : World) (repo : option RepoDescriptor) : run number :=
  info ← extractRepoInfo repo;
  match info with
  | InfoNull | InfoEmpty => mret zero
  | InfoValid owner name =>
      let url := issuesUrl owner name in
      reply ← request GithubIssues (issues_api w) url;
      match error reply with
      | Some err =>
          log_error ("Could not access issues on " +:+ url +:+ ": " +:+ err) [];;
          mret zero
      | None =>
          match json (body reply) with
          | SyntaxError exception =>
              fail ("Invalid issues in " +:+ text (body reply) +:+ ": " +:+ exception)
          | Json None => throw (TypeError "forEach" "null")
          | Json (Some issues) =>
              c ← forEach issues count_issue (Counters 0 0 0);
              if decide (total c = 0) then mret zero
              else mret (sub one (div (of_nat (open c)) (of_nat (total c))))
          end
      end
  end.

(** The URL of the downloads of a package over the last year
    (lines 130-132). *)
Definition downloadsUrl (w : World) (name : string) : string :=
  "http://npm-stat.com/downloads/range/" +:+ aYearAgo w +:+ ":" +:+ now w
  +:+ "/" +:+ name.

(** [item.downloads] as a number: [undefined] makes the sum NaN. *)
Definition item_downloads (item : DownloadSample) : number :=
  match sample_downloads item with
  | Some count => of_N count
  | None => NaN
  end.

(** [estimateDownloadsLastYear(name, callback)] (lines 129-165). *)
Definition estimateDownloadsLastYear (w : World) (name : string) : run number :=
  let url := downloadsUrl w name in
  reply ← request NpmStat (downloads_api w) url;
  match error reply with
  | Some err =>
      match response reply with
      | None => throw (TypeError "statusCode" "undefined")
      | Some response =>
          if decide (statusCode response = 404%N) then mret zero
          else
            log_error ("Could not read downloads for " +:+ name +:+ " (" +:+ url
                       +:+ "): " +:+ err) [];;
            mret zero
      end
  | None =>
      match json (body reply) with
      | SyntaxError exception =>
          fail ("Could not parse " +:+ name +:+ ": " +:+ exception)
      | Json None => throw (TypeError_in "downloads" "null")
      | Json (Some result) =>
          match downloads result with
          | None => mret zero
          | Some series =>
              downloads ← forEach series
                (fun item downloads => mret (add downloads (item_downloads item))) zero;
              mret (sub one (div one downloads))
          end
      end
  end.

(** [estimateVersions(versions, callback)] (lines 118-127). *)
Definition estimateVersions (versions : option VersionSet) : run number :=
  match versions with
  | None => mret zero
  | Some versions =>
      let number := countProperties versions in
      mret (sub one (div one (of_nat number)))
  end.

(** The URL of the registry metadata of a package (line 62). *)
Definition registryUrl (name : string) : string :=
  "http://registry.npmjs.org/" +:+ name.

(** The four tasks of the waterfall (lines 31-113), in order. *)

Definition task_repo (w : World) (entry : PackageEntry) : run number :=
  estimateRepo w (repository entry).

Definition task_downloads (w : World) (name : string)
    (consolidatedQuality : number) : run number :=
  if gt consolidatedQuality zero then
    downloadsQuality ← estimateDownloadsLastYear w name;
    mret (mul consolidatedQuality downloadsQuality)
  else mret consolidatedQuality.

Definition task_registry (w : World) (name : string)
    (consolidatedQuality : number) : run (number * option RegistryResponse) :=
  if gt consolidatedQuality zero then
    let url := registryUrl name in
    reply ← request NpmRegistry (registry_api w) url;
    match error reply with
    | Some err =>
        match response reply with
        | None => throw (TypeError "statusCode" "undefined")
        | Some response =>
            if decide (statusCode response = 404%N) then mret (zero, None)
            else
              log_error ("Could not read registry for " +:+ name +:+ " (" +:+ url
                         +:+ "): " +:+ err) [];;
              mret (zero, None)
        end
    | None =>
        match json (body reply) with
        | SyntaxError _ => mret (zero, None)
        | Json registryResponse => mret (consolidatedQuality, registryResponse)
        end
    end
  else mret (consolidatedQuality, None).

Definition task_versions (passed : number * option RegistryResponse) : run number :=
  let '(consolidatedQuality, registryResponse) := passed in
  if gt consolidatedQuality zero then
    match registryResponse with
    | None => throw (TypeError "versions" "null")
    | Some registryResponse =>
        versionQuality ← estimateVersions (versions registryResponse);
        mret (mul consolidatedQuality versionQuality)
    end
  else mret consolidatedQuality.

(** [async.waterfall]: each task receives what the one before passed to
    its callback; the first error ends the chain. *)
Definition waterfall (w : World) (entry : PackageEntry) (name : string) : run number :=
  consolidatedQuality ← task_repo w entry;
  consolidatedQuality ← task_downloads w name consolidatedQuality;
  passed ← task_registry w name consolidatedQuality;
  task_versions passed.

(** What [estimate] does with an entry it refuses (lines 28-29). *)
Definition refuse (w : World) (entry : option PackageEntry) : run number :=
  log_error ("null entry or entry without name: " +:+ JSON_stringify w entry) [];;
  fail (JSON_stringify w entry +:+ " is null or has no name").

(** [exports.estimate(entry, callback)] (lines 24-116). *)
Definition estimate (w : World) (entry : option PackageEntry) : run number :=
  match entry with
  | None => refuse w entry
  | Some e =>
      if falsy (name e) then refuse w entry
      else waterfall w e (default "" (name e))
  end.

(** ** Vocabulary of the properties *)

(** A request that was sent to [service]. *)
Definition sent_to (service : endpoint) (e : event) : bool :=
  match e with
  | Request s _ => bool_decide (s = service)
  | LogError _ _ => false
  end.

(** The requests of a trace, whatever the service. *)
Definition is_request (e : event) : bool :=
  match e with
  | Request _ _ => true
  | LogError _ _ => false
  end.

(** A trace whose requests all went to [service]. *)
Definition only_to (service : endpoint) (t : list event) : bool :=
  forallb (fun ev => negb (is_request ev) || sent_to service ev) t.

(** A trace without a request. *)
Definition quiet (t : list event) : bool :=
  forallb (fun ev => negb (is_request ev)) t.

(** An entry that is null or has no name: [!entry || !entry.name]. *)
Definition nameless (entry : option PackageEntry) : Prop :=
  match entry with
  | None => True
  | Some e => name e = None \/ name e = Some ""
  end.

(** The issues whose state is ["open"]. *)
Definition open_issues (issues : list Issue) : list Issue :=
  filter (fun issue => state issue = Some "open") issues.

(** The share of open issues in a list: [open / total]. *)
Definition open_ratio (issues : list Issue) : Qc :=
  (Qc_of_Z (Z.of_nat (length (open_issues issues)))
   / Qc_of_Z (Z.of_nat (length issues)))%Qc.

(** A download series every sample of which has its count. *)
Definition numeric (series : list DownloadSample) : Prop :=
  Forall (fun item => is_Some (sample_downloads item)) series.

(** The sum of the counts of a download series. *)
Definition total_downloads (series : list DownloadSample) : N :=
  foldr (fun item sum => (default 0%N (sample_downloads item) + sum)%N) 0%N series.

(** The sum in closed form: NaN as soon as a sample lacks its count. *)
Definition series_sum (series : list DownloadSample) : number :=
  if decide (numeric series) then of_N (total_downloads series) else NaN.

(** The score of a parsed reply that is not [null], in closed form. *)
Definition downloads_quality (result : DownloadsResult) : number :=
  match downloads result with
  | None => zero
  | Some series => sub one (div one (series_sum series))
  end.

(** A string in which [/] does not occur. *)
Definition slash_free (s : string) : Prop := Str.indexOf s "/" = None.

(** [pieces.join(sep)]. *)
Definition join (pieces : list string) (sep : string) : string :=
  String.concat sep pieces.

(** An issue whose state is neither ["open"] nor ["closed"]. *)
Definition other_state (issue : Issue) : Prop :=
  state issue ≠ Some "open" /\ state issue ≠ Some "closed".

#[global] Instance other_state_dec (issue : Issue) : Decision (other_state issue).
Proof. unfold other_state. apply _. Defined.

(** What the loop logs for an issue of another state. *)
Definition invalid_state_log (issue : Issue) : event :=
  LogError "Invalid state %s" [default "undefined" (state issue)].

(** The requests of a trace: the service and the URL of each, in the
    order in which they were sent. *)
Definition requests (t : list event) : list (endpoint * string) :=
  omap (fun ev => match ev with
                  | Request service uri => Some (service, uri)
                  | LogError _ _ => None
                  end) t.

(** A score that is minus infinity, 0, or strictly between 0 and 1. *)
Definition minus_infinity_or_fraction (s : number) : Prop :=
  s = NegInf \/ s = zero \/ exists q, s = Finite q /\ (0 < q < 1)%Qc.

(** ** Sample data

    A world where every service answers, and variations of it. The text
    of a body only shows in error messages; the samples abbreviate it. *)

(** A reply without error whose body parses to [value]. *)
Definition reply_ok {A} (text : string) (value : A) : Reply A :=
  {| error := None;
     response := Some {| statusCode := 200 |};
     body := {| text := text; json := Json value |} |}.

(** A reply whose body is a page of HTML. *)
Definition reply_html {A} : Reply A :=
  {| error := None;
     response := Some {| statusCode := 200 |};
     body := {| text := "<html>";
                json := SyntaxError "SyntaxError: Unexpected token <" |} |}.

(** A reply that carries an error and a response of the given status. *)
Definition reply_error {A} (status : N) : Reply A :=
  {| error := Some "Error: socket hang up";
     response := Some {| statusCode := status |};
     body := {| text := ""; json := SyntaxError "SyntaxError: Unexpected end of input" |} |}.

(** A reply that carries an error and no response. *)
Definition reply_unreachable {A} : Reply A :=
  {| error := Some "Error: connect ECONNREFUSED";
     response := None;
     body := {| text := ""; json := SyntaxError "SyntaxError: Unexpected end of input" |} |}.

(** A package whose repository is [owner/repo] on GitHub. *)
Definition sample_repo : RepoDescriptor :=
  {| type := Some "git"; url := Some "git@github.com:owner/repo.git" |}.

Definition sample_entry : PackageEntry :=
  {| name := Some "pkg"; repository := Some sample_repo |}.

(** A package without a repository. *)
Definition unlocated_entry : PackageEntry :=
  {| name := Some "pkg"; repository := None |}.

(** Three issues, two of them open; one issue, closed. *)
Definition sample_issues : list Issue :=
  [ {| state := Some "open" |}; {| state := Some "open" |}; {| state := Some "closed" |} ].

Definition closed_issues : list Issue := [ {| state := Some "closed" |} ].

(** A download series of the given counts. *)
Definition series_of (counts : list N) : DownloadsResult :=
  {| downloads := Some ((fun count => {| sample_downloads := Some count |}) <$> counts) |}.

(** Four published versions; a single one. *)
Definition sample_versions : VersionSet :=
  <["1.0.0" := tt]> (<["1.0.1" := tt]> (<["1.1.0" := tt]> (<["2.0.0" := tt]> ∅))).

Definition single_version : VersionSet := {[ "1.0.0" := tt ]}.

(** Two open issues out of three, 999 downloads and four versions. *)
Definition sample_world : World :=
  {| issues_api := fun _ => reply_ok "[...]" (Some sample_issues);
     downloads_api := fun _ => reply_ok "{...}" (Some (series_of [900; 99]%N));
     registry_api := fun _ =>
       reply_ok "{...}" (Some {| versions := Some sample_versions |});
     now := "2014-06-01";
     aYearAgo := "2013-06-01";
     JSON_stringify := fun entry =>
       match entry with None => "null" | Some _ => "{...}" end |}.

(** A world with another reply of one of the services. *)
Definition with_issues (w : World) (reply : Reply (option (list Issue))) : World :=
  {| issues_api := fun _ => reply;
     downloads_api := downloads_api w;
     registry_api := registry_api w;
     now := now w;
     aYearAgo := aYearAgo w;
     JSON_stringify := JSON_stringify w |}.

Definition with_downloads (w : World) (reply : Reply (option DownloadsResult)) : World :=
  {| issues_api := issues_api w;
     downloads_api := fun _ => reply;
     registry_api := registry_api w;
     now := now w;
     aYearAgo := aYearAgo w;
     JSON_stringify := JSON_stringify w |}.

Definition with_registry (w : World) (reply : Reply (option RegistryResponse)) : World :=
  {| issues_api := issues_api w;
     downloads_api := downloads_api w;
     registry_api := fun _ => reply;
     now := now w;
     aYearAgo := aYearAgo w;
     JSON_stringify := JSON_stringify w |}.

(** The sample world with one closed issue; with a single download in
    the year; with a single version. *)
Definition closed_world : World :=
  with_issues sample_world (reply_ok "[...]" (Some closed_issues)).

Definition one_download_world : World :=
  with_downloads sample_world (reply_ok "{...}" (Some (series_of [1%N]))).

Definition single_version_world : World :=
  with_registry sample_world (reply_ok "{...}" (Some {| versions := Some single_version |})).

(** A registry whose body is the JSON value [null]. *)
Definition null_registry_world : World :=
  with_registry sample_world (reply_ok "null" None).

(** * Properties *)

(** Decide a closed equation by evaluation. *)
Ltac by_evaluation := apply (bool_decide_unpack _); vm_compute; exact I.

(** ** Computations *)

Section Computations.
Context {A B : Type}.

(** The outcome and the trace of [m ≫= f]. *)
Lemma outcome_bind (m : run A) (f : A -> run B) :
  outcome (m ≫= f) =
  match outcome m with
  | Done a => outcome (f a)
  | Failed e => Failed e
  | Thrown e => Thrown e
  end.
Proof. unfold mbind, run_bind. by destruct (outcome m). Qed.

Lemma trace_bind (m : run A) (f : A -> run B) :
  trace (m ≫= f) =
  match outcome m with
  | Done a => trace m ++ trace (f a)
  | _ => trace m
  end.
Proof. unfold mbind, run_bind. by destruct (outcome m). Qed.

(** The laws of [≫=] the proofs use. *)
Lemma bind_done (m : run A) (f : A -> run B) (a : A) :
  outcome m = Done a ->
  m ≫= f = Run (outcome (f a)) (trace m ++ trace (f a)).
Proof. intros E. unfold mbind, run_bind. by rewrite E. Qed.

Lemma bind_ret (a : A) (f : A -> run B) : mret a ≫= f = f a.
Proof. unfold mbind, run_bind, mret, run_ret. simpl. by destruct (f a). Qed.

Lemma bind_mret_done (m : run A) (f : A -> run B) (a : A) (b : B) :
  outcome m = Done a -> f a = mret b -> m ≫= f = Run (Done b) (trace m).
Proof.
  intros Hm Hf. rewrite (bind_done m f a Hm), Hf. simpl. by rewrite app_nil_r.
Qed.

End Computations.

Lemma bind_assoc {A B C} (m : run A) (f : A -> run B) (g : B -> run C) :
  (m ≫= f) ≫= g = m ≫= (fun a => f a ≫= g).
Proof.
  unfold mbind, run_bind. destruct m as [[a| |] t]; simpl; try done.
  destruct (f a) as [[b| |] t']; simpl; try done.
  by rewrite app_assoc.
Qed.

(** ** Traces *)

(** [quiet] and [only_to] in terms of the events of the trace. *)
Lemma quiet_only_to service t : quiet t = true -> only_to service t = true.
Proof.
  unfold quiet, only_to. rewrite !forallb_forall. intros H ev Hin.
  by rewrite (H ev Hin).
Qed.

Lemma only_to_spec service t s uri :
  only_to service t = true -> Request s uri ∈ t -> s = service.
Proof.
  unfold only_to. rewrite forallb_forall. intros H Hin.
  apply list_elem_of_In, H in Hin. simpl in Hin.
  by apply bool_decide_eq_true in Hin.
Qed.

Lemma only_to_app service t1 t2 :
  only_to service (t1 ++ t2) = only_to service t1 && only_to service t2.
Proof. apply forallb_app. Qed.

(** ** Arithmetic of the scores *)

Section Scores.
Local Open Scope Qc_scope.

(** Integers among the rationals. *)
Lemma Qc_of_Z_pos (n : Z) : (0 < n)%Z -> 0 < Qc_of_Z n.
Proof. intros H. rewrite <- Z2Qc_inj_0. exact (proj1 (Z2Qc_inj_lt 0 n) H). Qed.

Lemma Qc_of_Z_nonneg (n : Z) : (0 <= n)%Z -> 0 <= Qc_of_Z n.
Proof. intros H. rewrite <- Z2Qc_inj_0. exact (proj1 (Z2Qc_inj_le 0 n) H). Qed.

Lemma Qc_of_Z_nonzero (n : Z) : n ≠ 0%Z -> Qc_of_Z n ≠ 0.
Proof. intros H E. rewrite <- Z2Qc_inj_0 in E. exact (H (Z2Qc_inj n 0 E)). Qed.

(** [1 - x] against the bounds of [x]. *)
Lemma one_minus_nonneg (x : Qc) : x <= 1 -> 0 <= 1 - x.
Proof. intros H. exact (proj1 (Qcle_minus_iff x 1) H). Qed.

Lemma one_minus_pos (x : Qc) : x < 1 -> 0 < 1 - x.
Proof. intros H. exact (proj1 (Qclt_minus_iff x 1) H). Qed.

Lemma one_minus_le_one (x : Qc) : 0 <= x -> 1 - x <= 1.
Proof.
  intros H. apply (proj2 (Qcle_minus_iff _ _)). by replace (1 + - (1 - x)) with x by ring.
Qed.

Lemma one_minus_lt_one (x : Qc) : 0 < x -> 1 - x < 1.
Proof.
  intros H. apply (proj2 (Qclt_minus_iff _ _)). by replace (1 + - (1 - x)) with x by ring.
Qed.

Lemma one_minus_lt (x y : Qc) : x < y -> 1 - y < 1 - x.
Proof.
  intros H. apply (proj2 (Qclt_minus_iff _ _)).
  apply (proj1 (Qclt_minus_iff _ _)) in H.
  by replace (1 - x + - (1 - y)) with (y + - x) by ring.
Qed.

Create HintDb scores discriminated.
#[local] Hint Resolve Qclt_le_weak Qcinv_pos Qcmult_pos_pos Qcmult_nonneg_nonneg : scores.

(** A ratio [x / y] of a part to a whole. *)
Lemma ratio_nonneg (x y : Qc) : 0 <= x -> 0 < y -> 0 <= x / y.
Proof. intros Hx Hy. unfold Qcdiv. auto with scores. Qed.

Lemma ratio_le_one (x y : Qc) : x <= y -> 0 < y -> x / y <= 1.
Proof.
  intros Hxy Hy. replace 1 with (y / y).
  - apply Qcmult_le_mono_nonneg_r; auto with scores.
  - apply Qcmult_inv_r. by apply Qclt_not_eq in Hy.
Qed.

Lemma ratio_lt_one (x y : Qc) : x < y -> 0 < y -> x / y < 1.
Proof.
  intros Hxy Hy. replace 1 with (y / y).
  - apply (proj1 (Qcmult_lt_mono_pos_r x y (/ y) (Qcinv_pos y Hy))). done.
  - apply Qcmult_inv_r. by apply Qclt_not_eq in Hy.
Qed.

Lemma ratio_pos (x y : Qc) : 0 < x -> 0 < y -> 0 < x / y.
Proof. intros Hx Hy. unfold Qcdiv. auto with scores. Qed.

(** No part, and the whole. *)
Lemma ratio_of_none (y : Qc) : (1 - Qc_of_Z (Z.of_nat 0) / y = 1)%Qc.
Proof. change (Z.of_nat 0) with 0%Z. rewrite Z2Qc_inj_0. unfold Qcdiv. ring. Qed.

Lemma ratio_of_all (y : Qc) : y ≠ 0%Qc -> (1 - y / y = 0)%Qc.
Proof. intros H. by field. Qed.

(** The two formulas of the program, [1 - part / whole] and [1 - 1 / n],
    on numbers. *)
Lemma score_ratio (part whole : nat) :
  whole ≠ 0%nat ->
  sub one (div (of_nat part) (of_nat whole))
  = Finite (1 - Qc_of_Z (Z.of_nat part) / Qc_of_Z (Z.of_nat whole)).
Proof.
  intros H. unfold sub, div, of_nat, of_Z, one. simpl.
  destruct (decide (Qc_of_Z (Z.of_nat whole) = 0)) as [E|_]; [|done].
  exfalso. revert E. apply Qc_of_Z_nonzero. lia.
Qed.

Lemma score_inverse (n : Z) :
  n ≠ 0%Z -> sub one (div one (of_Z n)) = Finite (1 - 1 / Qc_of_Z n).
Proof.
  intros H. unfold sub, div, of_Z, one. simpl.
  destruct (decide (Qc_of_Z n = 0)) as [E|_]; [|done].
  exfalso. revert E. by apply Qc_of_Z_nonzero.
Qed.

(** Their ranges. *)
Lemma score_ratio_bounds (part whole : nat) :
  (part <= whole)%nat -> whole ≠ 0%nat ->
  0 <= 1 - Qc_of_Z (Z.of_nat part) / Qc_of_Z (Z.of_nat whole) <= 1.
Proof.
  intros Hle Hpos.
  assert (0 < Qc_of_Z (Z.of_nat whole)) as Hw by (apply Qc_of_Z_pos; lia).
  assert (0 <= Qc_of_Z (Z.of_nat part)) as Hp by (apply Qc_of_Z_nonneg; lia).
  split.
  - apply one_minus_nonneg, ratio_le_one; [|done].
    apply (proj1 (Z2Qc_inj_le _ _)). lia.
  - apply one_minus_le_one, ratio_nonneg; done.
Qed.

Lemma score_inverse_bounds (n : Z) :
  (1 <= n)%Z -> 0 ≤ 1 - 1 / Qc_of_Z n < 1.
Proof.
  intros H.
  assert (0 < Qc_of_Z n) as Hn by (apply Qc_of_Z_pos; lia).
  split.
  - apply one_minus_nonneg, ratio_le_one; [|done].
    rewrite <- Z2Qc_inj_1. by apply (proj1 (Z2Qc_inj_le _ _)).
  - apply one_minus_lt_one, ratio_pos; done.
Qed.

Lemma score_inverse_pos (n : Z) :
  (2 <= n)%Z -> 0 < 1 - 1 / Qc_of_Z n.
Proof.
  intros H.
  assert (0 < Qc_of_Z n) as Hn by (apply Qc_of_Z_pos; lia).
  apply one_minus_pos, ratio_lt_one; [|done].
  rewrite <- Z2Qc_inj_1. apply (proj1 (Z2Qc_inj_lt _ _)). lia.
Qed.

(** A product of scores. *)
Lemma product_range (i d v : Qc) :
  (0 < i)%Qc -> (i <= 1)%Qc -> (0 < d)%Qc -> (d < 1)%Qc ->
  (0 < v)%Qc -> (v < 1)%Qc -> (0 < i * d * v < 1)%Qc.
Proof.
  intros Hi Hi1 Hd Hd1 Hv Hv1.
  assert (0 < i * d)%Qc as Hid by (by apply Qcmult_pos_pos).
  assert (i * d < 1)%Qc as Hid1.
  { apply Qcle_lt_trans with (1 * d)%Qc; [|by rewrite Qcmult_1_l].
    apply Qcmult_le_mono_nonneg_r; [|done]. by apply Qclt_le_weak. }
  split; [by apply Qcmult_pos_pos|].
  apply Qclt_trans with (1 * v)%Qc; [|by rewrite Qcmult_1_l].
  by apply (proj1 (Qcmult_lt_mono_pos_r _ _ _ Hv)).
Qed.

(** [q > 0] on a rational. *)
Lemma gt_zero_finite (q : Qc) : gt (Finite q) zero = true <-> (0 < q)%Qc.
Proof. unfold gt, zero. apply bool_decide_eq_true. Qed.

End Scores.

(** ** Strings *)

(** Prefixes. *)
Lemma append_cons (c : Ascii.ascii) (s1 s2 : string) :
  String c s1 +:+ s2 = String c (s1 +:+ s2).
Proof. reflexivity. Qed.

Lemma prefix_empty (s : string) : String.prefix "" s = true.
Proof. by destruct s. Qed.

Lemma prefix_append (p rest : string) : String.prefix p (p +:+ rest) = true.
Proof.
  induction p as [|c p IH]; [apply prefix_empty|].
  rewrite append_cons. simpl. by destruct (Ascii.ascii_dec c c).
Qed.

Lemma indexOf_prefix (p rest : string) : Str.indexOf (p +:+ rest) p = Some 0.
Proof.
  unfold Str.indexOf. destruct p as [|c p].
  - change ("" +:+ rest) with rest. by destruct rest.
  - rewrite append_cons. cbn [String.index]. rewrite <- append_cons.
    by rewrite prefix_append.
Qed.

(** Slices. *)
Lemma substring_all (s : string) : String.substring 0 (String.length s) s = s.
Proof. induction s as [|c s IH]; simpl; [done|]. by rewrite IH. Qed.

Lemma slice_from_append (p rest : string) :
  Str.slice_from (p +:+ rest) (String.length p) = rest.
Proof.
  unfold Str.slice_from. induction p as [|c p IH].
  - change ("" +:+ rest) with rest. cbn [String.length].
    rewrite Nat.sub_0_r. apply substring_all.
  - rewrite append_cons. cbn [String.length String.substring]. by rewrite Nat.sub_succ.
Qed.

(** [substringFrom] takes a prefix off. *)
Lemma substringFrom_prefix (p rest : string) : Str.substringFrom (p +:+ rest) p = rest.
Proof.
  unfold Str.substringFrom. rewrite indexOf_prefix. apply slice_from_append.
Qed.

(** A name in which [.git] does not occur is kept whole. *)
Lemma substringUpTo_absent (s str : string) :
  Str.indexOf s str = None -> Str.substringUpTo s str = s.
Proof. intros H. unfold Str.substringUpTo. by rewrite H. Qed.

(** ** Locating the repository *)

(** A URL [git@github.com:...] is cut after its prefix. *)
Lemma extractRepoInfo_ssh (rest : string) :
  extractRepoInfo (Some {| type := Some "git"; url := Some ("git@github.com:" +:+ rest) |})
  = extractPieces rest 0.
Proof.
  unfold extractRepoInfo. cbn [type url default].
  rewrite append_cons. cbn [falsy orb]. rewrite <- append_cons.
  rewrite decide_False by (by intros H; apply H).
  unfold id, Str.startsWith. by rewrite prefix_append, substringFrom_prefix.
Qed.

(** The pieces of a [git@github.com:] URL: two pieces give the owner
    and the name, cut where [.git] first occurs; any other number of
    pieces gives the empty object. *)
Lemma extractPieces_two (owner last : string) (remaining : string) :
  Str.split remaining "/" = [owner; last] ->
  outcome (extractPieces remaining 0)
  = Done (InfoValid owner (Str.substringUpTo last ".git")).
Proof. intros H. unfold extractPieces. by rewrite H. Qed.

Lemma extractPieces_other (remaining : string) :
  length (Str.split remaining "/") ≠ 2 ->
  outcome (extractPieces remaining 0) = Done InfoEmpty.
Proof. intros H. unfold extractPieces. by rewrite decide_True. Qed.

(** The rule for the URLs [git@github.com:...]: what follows the prefix
    is split on [/]; two pieces are the owner and the name, the name cut
    where [.git] first occurs and kept whole when [.git] does not occur;
    any other number of pieces gives a location that is not valid. *)
Theorem locate_ssh (rest : string) :
  let repo := Some {| type := Some "git"; url := Some ("git@github.com:" +:+ rest) |} in
  (forall owner last,
     Str.split rest "/" = [owner; last] ->
     outcome (extractRepoInfo repo) = Done (InfoValid owner (Str.substringUpTo last ".git"))
     /\ (Str.indexOf last ".git" = None ->
         outcome (extractRepoInfo repo) = Done (InfoValid owner last)))
  /\ (length (Str.split rest "/") ≠ 2 ->
      outcome (extractRepoInfo repo) = Done InfoEmpty).
Proof.
  cbv zeta. rewrite extractRepoInfo_ssh. split.
  - intros owner last Hsplit. rewrite (extractPieces_two owner last rest Hsplit).
    split; [done|]. intros Habsent. by rewrite substringUpTo_absent.
  - apply extractPieces_other.
Qed.

(** A name without [.git]. *)
Lemma locate_ssh_witness :
  outcome (extractRepoInfo
             (Some {| type := Some "git"; url := Some "git@github.com:owner/repo" |}))
  = Done (InfoValid "owner" "repo").
Proof.
  destruct (locate_ssh "owner/repo") as [H _].
  destruct (H "owner" "repo") as [_ H']; [reflexivity|].
  apply H'. reflexivity.
Defined.

(** The name of [owner/repo.git] is [repo]. *)
Lemma locate_example :
  outcome (extractRepoInfo
             (Some {| type := Some "git"; url := Some "git@github.com:owner/repo.git" |}))
  = Done (InfoValid "owner" "repo").
Proof. reflexivity. Qed.

(** C6, as the program has it: a name that holds [.git] before its end
    is cut there, although it has no trailing [.git]. *)
Lemma name_cut_at_first_dot_git :
  Str.endsWith "repo.github.io" ".git" = false
  /\ outcome (extractRepoInfo
                (Some {| type := Some "git";
                         url := Some "git@github.com:owner/repo.github.io" |}))
     = Done (InfoValid "owner" "repo").
Proof. split; reflexivity. Qed.

(** Locating a repository sends no request. *)
Lemma extractPieces_quiet remaining initial :
  quiet (trace (extractPieces remaining initial)) = true.
Proof.
  unfold extractPieces. case_decide; [done|].
  by repeat case_match.
Qed.

Lemma extractRepoInfo_quiet repo : quiet (trace (extractRepoInfo repo)) = true.
Proof.
  unfold extractRepoInfo. destruct repo as [repo|]; [|done].
  destruct (falsy _ || falsy _); [done|].
  case_decide; [done|].
  repeat (case_match; try apply extractPieces_quiet).
Qed.

(** ** The issue score *)

(** One turn of the loop, then the loop: the counters count the issues
    and the open ones, and no request is sent. *)
Lemma count_issue_spec (issue : Issue) (c : counters) :
  exists c',
    count_issue issue c = Run (Done c') (trace (count_issue issue c))
    /\ open c' = open c + (if decide (state issue = Some "open") then 1 else 0)
    /\ total c' = total c + 1
    /\ quiet (trace (count_issue issue c)) = true.
Proof.
  unfold count_issue. repeat case_decide; simpl; eexists; repeat split; simpl; lia.
Qed.

Lemma forEach_count_issue (issues : list Issue) (c : counters) :
  exists c',
    outcome (forEach issues count_issue c) = Done c'
    /\ open c' = open c + length (open_issues issues)
    /\ total c' = total c + length issues
    /\ quiet (trace (forEach issues count_issue c)) = true.
Proof.
  revert c. induction issues as [|issue issues IH]; intros c; cbn [forEach].
  - exists c. repeat split; simpl; lia.
  - destruct (count_issue_spec issue c) as (c1 & E & Ho & Ht & Hq).
    destruct (IH c1) as (c' & E' & Ho' & Ht' & Hq').
    exists c'. rewrite outcome_bind, trace_bind, E. cbn [outcome trace].
    repeat split; [done| | |].
    + rewrite Ho', Ho. unfold open_issues. rewrite filter_cons.
      case_decide; simpl; lia.
    + simpl. lia.
    + unfold quiet in *. rewrite forallb_app. by rewrite Hq, Hq'.
Qed.

(** What [estimateRepo] does once the repository is located. *)
Lemma estimateRepo_outcome (w : World) (repo : option RepoDescriptor) (owner nm : string) :
  outcome (extractRepoInfo repo) = Done (InfoValid owner nm) ->
  outcome (estimateRepo w repo) =
  let reply := issues_api w (issuesUrl owner nm) in
  match error reply with
  | Some _ => Done zero
  | None =>
      match json (body reply) with
      | SyntaxError exception =>
          Failed ("Invalid issues in " +:+ text (body reply) +:+ ": " +:+ exception)
      | Json None => Thrown (TypeError "forEach" "null")
      | Json (Some issues) =>
          Done (if decide (length issues = 0) then zero
                else Finite (1 - Qc_of_Z (Z.of_nat (length (open_issues issues)))
                                 / Qc_of_Z (Z.of_nat (length issues))))
      end
  end.
Proof.
  intros Hinfo. unfold estimateRepo. rewrite outcome_bind, Hinfo.
  rewrite outcome_bind. simpl.
  destruct (error _); [done|].
  destruct (json _) as [exception|[issues|]]; [done| |done].
  rewrite outcome_bind.
  destruct (forEach_count_issue issues (Counters 0 0 0)) as (c & -> & Ho & Ht & _).
  simpl in Ho, Ht. rewrite Ho, Ht.
  destruct (decide (length issues = 0)) as [E|E]; [done|].
  simpl. f_equal. by apply score_ratio.
Qed.

(** Without a valid location nothing is requested. *)
Lemma estimateRepo_unlocated (w : World) (repo : option RepoDescriptor) (info : RepoInfo) :
  outcome (extractRepoInfo repo) = Done info ->
  info = InfoNull \/ info = InfoEmpty ->
  estimateRepo w repo = Run (Done zero) (trace (extractRepoInfo repo)).
Proof.
  intros Hinfo Hinvalid. unfold estimateRepo.
  apply (bind_mret_done _ _ info); [done|]. by destruct Hinvalid as [-> | ->].
Qed.

(** [estimateRepo] sends its requests to the issue tracker only. *)
Lemma estimateRepo_only_to w repo :
  only_to GithubIssues (trace (estimateRepo w repo)) = true.
Proof.
  unfold estimateRepo. rewrite trace_bind.
  pose proof (quiet_only_to GithubIssues _ (extractRepoInfo_quiet repo)) as Hq.
  destruct (outcome (extractRepoInfo repo)) as [[| |owner nm]| |]; try done.
  - rewrite only_to_app, Hq. done.
  - rewrite only_to_app, Hq. done.
  - rewrite only_to_app, Hq, trace_bind. cbn [request outcome trace].
    destruct (error _); [done|].
    destruct (json _) as [|[issues|]]; [done| |done].
    rewrite trace_bind.
    destruct (forEach_count_issue issues (Counters 0 0 0)) as (c & -> & _ & _ & Hc).
    rewrite !only_to_app, (quiet_only_to _ _ Hc). by case_decide.
Qed.

(** The issue score is a rational between 0 and 1. *)
Lemma estimateRepo_range (w : World) (repo : option RepoDescriptor) (s : number) :
  outcome (estimateRepo w repo) = Done s ->
  exists q, s = Finite q /\ (0 <= q <= 1)%Qc.
Proof.
  assert (exists q, zero = Finite q /\ (0 <= q <= 1)%Qc) as Hzero.
  { exists 0%Qc. by repeat split. }
  destruct (outcome (extractRepoInfo repo)) as [[| |owner nm]| |] eqn:Hinfo.
  - rewrite (estimateRepo_unlocated w repo _ Hinfo) by auto. by intros [= <-].
  - rewrite (estimateRepo_unlocated w repo _ Hinfo) by auto. by intros [= <-].
  - rewrite (estimateRepo_outcome w repo owner nm Hinfo). cbv zeta.
    destruct (error _); [by intros [= <-]|].
    destruct (json _) as [|[issues|]]; [done| |done].
    case_decide as Hlen; intros [= <-]; [done|].
    eexists. split; [done|]. apply score_ratio_bounds; [|done].
    apply length_filter.
  - unfold estimateRepo. by rewrite outcome_bind, Hinfo.
  - unfold estimateRepo. by rewrite outcome_bind, Hinfo.
Qed.

(** The issue score in terms of the share of open issues. *)
Lemma estimateRepo_ratio (w : World) (repo : option RepoDescriptor)
    (owner nm : string) (issues : list Issue) :
  outcome (extractRepoInfo repo) = Done (InfoValid owner nm) ->
  error (issues_api w (issuesUrl owner nm)) = None ->
  json (body (issues_api w (issuesUrl owner nm))) = Json (Some issues) ->
  issues ≠ [] ->
  outcome (estimateRepo w repo) = Done (Finite (1 - open_ratio issues))
  /\ (0 <= 1 - open_ratio issues)%Qc.
Proof.
  intros Hinfo Herr Hjson Hne.
  assert (length issues ≠ 0) as Hlen by (by destruct issues).
  rewrite (estimateRepo_outcome w repo owner nm Hinfo). cbv zeta.
  rewrite Herr, Hjson, decide_False by done. split; [done|].
  apply score_ratio_bounds; [|done]. apply length_filter.
Qed.

(** C4. Once the issue list is fetched, the issue score is 0 when the
    list is empty and [1 - open / total] otherwise, where [total] counts
    every issue of the list and [open] those whose state is ["open"]; so
    a list with no open issue scores exactly 1 and a list of open issues
    only scores exactly 0. *)
Theorem issue_score (w : World) (repo : option RepoDescriptor)
    (owner nm : string) (issues : list Issue) :
  outcome (extractRepoInfo repo) = Done (InfoValid owner nm) ->
  error (issues_api w (issuesUrl owner nm)) = None ->
  json (body (issues_api w (issuesUrl owner nm))) = Json (Some issues) ->
  outcome (estimateRepo w repo)
  = Done (if decide (length issues = 0) then zero
          else Finite (1 - Qc_of_Z (Z.of_nat (length (open_issues issues)))
                           / Qc_of_Z (Z.of_nat (length issues))))
  /\ (issues ≠ [] -> open_issues issues = [] ->
      outcome (estimateRepo w repo) = Done (Finite 1))
  /\ (issues ≠ [] -> open_issues issues = issues ->
      outcome (estimateRepo w repo) = Done (Finite 0)).
Proof.
  intros Hinfo Herr Hjson.
  rewrite (estimateRepo_outcome w repo owner nm Hinfo). simpl.
  rewrite Herr, Hjson.
  assert (issues ≠ [] -> length issues ≠ 0) as Hlen by (by destruct issues).
  split; [done|]. split.
  - intros Hne ->. rewrite decide_False by auto. simpl length.
    by rewrite ratio_of_none.
  - intros Hne ->. rewrite decide_False by auto.
    rewrite ratio_of_all; [done|]. apply Qc_of_Z_nonzero. specialize (Hlen Hne). lia.
Qed.

(** Two open issues out of three score a third. *)
Lemma issue_score_witness :
  outcome (extractRepoInfo (Some sample_repo)) = Done (InfoValid "owner" "repo")
  /\ outcome (estimateRepo sample_world (Some sample_repo))
     = Done (Finite (1 - Qc_of_Z 2 / Qc_of_Z 3)).
Proof.
  split; [reflexivity|].
  apply (issue_score sample_world (Some sample_repo) "owner" "repo" sample_issues);
    reflexivity.
Defined.

(** ** The download score *)

(** The loop over the series sums the counts, and gives NaN as soon as
    a sample lacks its count. *)
Lemma add_counts (a b : N) : add (of_N a) (of_N b) = of_N (a + b).
Proof.
  unfold add, of_N, of_Z. f_equal.
  by rewrite N2Z.inj_add, Z2Qc_inj_add.
Qed.

Lemma forEach_nan (series : list DownloadSample) :
  forEach series (fun item downloads => mret (add downloads (item_downloads item))) NaN
  = mret NaN.
Proof.
  induction series as [|item series IH]; cbn [forEach]; [done|].
  by rewrite bind_ret.
Qed.

Lemma forEach_sum (series : list DownloadSample) (acc : N) :
  forEach series (fun item downloads => mret (add downloads (item_downloads item)))
    (of_N acc)
  = mret (if decide (numeric series) then of_N (acc + total_downloads series) else NaN).
Proof.
  revert acc. induction series as [|item series IH]; intros acc; cbn [forEach].
  - rewrite decide_True by constructor. f_equal. unfold total_downloads. simpl.
    by rewrite N.add_0_r.
  - rewrite bind_ret. unfold item_downloads, numeric.
    destruct (sample_downloads item) as [count|] eqn:Hcount.
    + rewrite add_counts, IH. f_equal. unfold numeric.
      destruct (decide (Forall _ series)) as [Hn|Hn].
      * rewrite decide_True by (constructor; [by rewrite Hcount|done]).
        unfold total_downloads. simpl. rewrite Hcount. simpl. f_equal. lia.
      * rewrite decide_False; [done|]. by intros [_ ?]%Forall_cons.
    + change (add (of_N acc) NaN) with NaN. rewrite forEach_nan.
      rewrite decide_False; [done|]. intros [[? ?] _]%Forall_cons. congruence.
Qed.

Lemma forEach_series_sum (series : list DownloadSample) :
  forEach series (fun item downloads => mret (add downloads (item_downloads item))) zero
  = mret (series_sum series).
Proof.
  replace zero with (of_N 0)
    by (unfold of_N, of_Z; cbn [Z.of_N]; by rewrite Z2Qc_inj_0).
  rewrite forEach_sum. unfold series_sum. by rewrite N.add_0_l.
Qed.

(** What [estimateDownloadsLastYear] passes to its callback, and what it
    leaves in the trace. *)
Lemma estimateDownloadsLastYear_outcome (w : World) (nm : string) :
  outcome (estimateDownloadsLastYear w nm) =
  let reply := downloads_api w (downloadsUrl w nm) in
  match error reply with
  | Some _ =>
      match response reply with
      | None => Thrown (TypeError "statusCode" "undefined")
      | Some _ => Done zero
      end
  | None =>
      match json (body reply) with
      | SyntaxError exception => Failed ("Could not parse " +:+ nm +:+ ": " +:+ exception)
      | Json None => Thrown (TypeError_in "downloads" "null")
      | Json (Some result) => Done (downloads_quality result)
      end
  end.
Proof.
  unfold estimateDownloadsLastYear. rewrite outcome_bind. cbn [request outcome].
  cbv zeta. destruct (error _).
  - destruct (response _); [|done]. by case_decide.
  - destruct (json _) as [|[result|]]; [done| |done]. unfold downloads_quality.
    destruct (downloads result) as [series|]; [|done].
    by rewrite forEach_series_sum, bind_ret.
Qed.

Lemma estimateDownloadsLastYear_trace (w : World) (nm : string) :
  trace (estimateDownloadsLastYear w nm) =
  let url := downloadsUrl w nm in
  let reply := downloads_api w url in
  Request NpmStat url ::
  match error reply, response reply with
  | Some err, Some response =>
      if decide (statusCode response = 404%N) then []
      else [LogError ("Could not read downloads for " +:+ nm +:+ " (" +:+ url
                      +:+ "): " +:+ err) []]
  | _, _ => []
  end.
Proof.
  unfold estimateDownloadsLastYear. rewrite trace_bind. cbn [request outcome trace].
  cbv zeta. destruct (error _).
  - destruct (response _); [|done]. by case_decide.
  - destruct (json _) as [|[result|]]; [done| |done].
    destruct (downloads result) as [series|]; [|done].
    by rewrite forEach_series_sum, bind_ret.
Qed.

Lemma estimateDownloadsLastYear_only_to w nm :
  only_to NpmStat (trace (estimateDownloadsLastYear w nm)) = true.
Proof.
  rewrite estimateDownloadsLastYear_trace. cbv zeta.
  destruct (error _); [|done]. destruct (response _); [|done]. by case_decide.
Qed.

(** The score of a series every sample of which has its count. *)
Lemma downloads_quality_numeric (series : list DownloadSample) :
  numeric series ->
  downloads_quality {| downloads := Some series |}
  = sub one (div one (of_N (total_downloads series))).
Proof.
  intros Hn. unfold downloads_quality, series_sum. cbn [downloads].
  by rewrite decide_True.
Qed.

Lemma downloads_quality_nan (series : list DownloadSample) :
  ~ numeric series -> downloads_quality {| downloads := Some series |} = NaN.
Proof.
  intros Hn. unfold downloads_quality, series_sum. cbn [downloads].
  by rewrite decide_False.
Qed.

Lemma estimateDownloadsLastYear_finite (w : World) (nm : string) (d : Qc) :
  outcome (estimateDownloadsLastYear w nm) = Done (Finite d) -> (0 ≤ d < 1)%Qc.
Proof.
  rewrite estimateDownloadsLastYear_outcome. cbv zeta.
  assert (0 ≤ 0 < 1)%Qc as Hzero by done.
  destruct (error _).
  - destruct (response _); [|done]. by intros [= <-].
  - destruct (json _) as [|[[[series|]]|]]; [done| |by intros [= <-]|done].
    destruct (decide (numeric series)) as [Hn|Hn].
    2: { by rewrite downloads_quality_nan. }
    rewrite downloads_quality_numeric by done.
    destruct (decide (total_downloads series = 0%N)) as [->|Hne]; [done|].
    unfold of_N. rewrite score_inverse by lia. intros [= <-].
    apply score_inverse_bounds. lia.
Qed.

(** Without a response, reading its status throws. *)
Lemma download_error_without_response (w : World) (nm err : string) :
  error (downloads_api w (downloadsUrl w nm)) = Some err ->
  response (downloads_api w (downloadsUrl w nm)) = None ->
  outcome (estimateDownloadsLastYear w nm) = Thrown (TypeError "statusCode" "undefined").
Proof.
  intros Herr Hresponse. rewrite estimateDownloadsLastYear_outcome.
  cbv zeta. by rewrite Herr, Hresponse.
Qed.

(** A connection that is refused leaves no response. *)
Lemma download_error_without_response_witness :
  outcome (estimateDownloadsLastYear (with_downloads sample_world reply_unreachable) "pkg")
  = Thrown "TypeError: Cannot read property 'statusCode' of undefined".
Proof.
  apply (download_error_without_response
           (with_downloads sample_world reply_unreachable) "pkg"
           "Error: connect ECONNREFUSED"); reflexivity.
Defined.

(** C8, as the program has it: when the connection to the download
    statistics is refused, the error comes without a response, and the
    scorer throws on reading the status: it logs nothing and never calls
    back. The scorer of the issues, on the same reply, logs the error
    and scores 0. *)
Lemma refused_download_fetch_throws :
  error (reply_unreachable (A := option DownloadsResult))
  = Some "Error: connect ECONNREFUSED"
  /\ response (reply_unreachable (A := option DownloadsResult)) = None
  /\ estimateDownloadsLastYear (with_downloads sample_world reply_unreachable) "pkg"
     = Run (Thrown "TypeError: Cannot read property 'statusCode' of undefined")
         [Request NpmStat "http://npm-stat.com/downloads/range/2013-06-01:2014-06-01/pkg"]
  /\ estimateRepo (with_issues sample_world reply_unreachable) (Some sample_repo)
     = Run (Done zero)
         [Request GithubIssues
            "https://api.github.com/repos/owner/repo/issues?per_page=1000&state=all";
          LogError "Could not access issues on https://api.github.com/repos/owner/repo/issues?per_page=1000&state=all: Error: connect ECONNREFUSED" []].
Proof. repeat split; reflexivity. Qed.

(** ** The version score *)

(** No [versions], no signal. *)
Lemma estimateVersions_absent : estimateVersions None = mret zero.
Proof. reflexivity. Qed.

(** The version score of an object that is absent or not empty, and of
    one with two versions or more. *)
Lemma estimateVersions_range (versions : option VersionSet) :
  versions ≠ Some ∅ ->
  exists q, outcome (estimateVersions versions) = Done (Finite q) /\ (0 ≤ q < 1)%Qc.
Proof.
  intros Hne. destruct versions as [m|].
  - assert (size m ≠ 0) as Hsize.
    { intros E. apply map_size_empty_iff in E. by subst. }
    unfold estimateVersions, countProperties, of_nat. rewrite score_inverse by lia.
    eexists. split; [done|]. apply score_inverse_bounds. lia.
  - exists 0%Qc. by repeat split.
Qed.

Lemma estimateVersions_positive (m : VersionSet) :
  2 <= size m ->
  exists q, outcome (estimateVersions (Some m)) = Done (Finite q) /\ (0 < q < 1)%Qc.
Proof.
  intros Hsize. unfold estimateVersions, countProperties, of_nat.
  rewrite score_inverse by lia. eexists. split; [done|]. split.
  - apply score_inverse_pos. lia.
  - apply score_inverse_bounds. lia.
Qed.

(** ** The range of the scores *)

(** C5. The issue score lies in [[0, 1]]: it is exactly 0 for an empty
    list and exactly 1 for a list that is not empty and has no open
    issue. The download score of a series every sample of which has its
    count, and the total of which is not 0, lies in [[0, 1]]; the score
    is exactly 0 when the reply has no series. The version score lies in
    [[0, 1)] when the versions object is absent or not empty, and is
    exactly 0 when it is absent. *)
Theorem score_ranges :
  (forall (w : World) (repo : option RepoDescriptor) (s : number),
     outcome (estimateRepo w repo) = Done s ->
     exists q, s = Finite q /\ (0 <= q <= 1)%Qc)
  /\ (forall (w : World) (repo : option RepoDescriptor) (owner nm : string)
             (issues : list Issue),
     outcome (extractRepoInfo repo) = Done (InfoValid owner nm) ->
     error (issues_api w (issuesUrl owner nm)) = None ->
     json (body (issues_api w (issuesUrl owner nm))) = Json (Some issues) ->
     (issues = [] -> outcome (estimateRepo w repo) = Done zero)
     /\ (issues ≠ [] -> open_issues issues = [] ->
         outcome (estimateRepo w repo) = Done (Finite 1)))
  /\ (forall (w : World) (nm : string) (series : list DownloadSample),
     error (downloads_api w (downloadsUrl w nm)) = None ->
     json (body (downloads_api w (downloadsUrl w nm)))
     = Json (Some {| downloads := Some series |}) ->
     numeric series -> total_downloads series ≠ 0%N ->
     exists q, outcome (estimateDownloadsLastYear w nm) = Done (Finite q)
               /\ (0 <= q <= 1)%Qc)
  /\ (forall (w : World) (nm : string),
     error (downloads_api w (downloadsUrl w nm)) = None ->
     json (body (downloads_api w (downloadsUrl w nm)))
     = Json (Some {| downloads := None |}) ->
     outcome (estimateDownloadsLastYear w nm) = Done zero)
  /\ (forall (versions : option VersionSet),
     versions ≠ Some ∅ ->
     exists q, outcome (estimateVersions versions) = Done (Finite q)
               /\ (0 ≤ q < 1)%Qc)
  /\ estimateVersions None = mret zero.
Proof.
  split; [|split; [|split; [|split; [|split; [|done]]]]].
  - apply estimateRepo_range.
  - intros w repo owner nm issues Hinfo Herr Hjson.
    rewrite (estimateRepo_outcome w repo owner nm Hinfo). cbv zeta.
    rewrite Herr, Hjson. split.
    + by intros ->.
    + intros Hne ->. rewrite decide_False by (by destruct issues).
      cbn [length]. by rewrite ratio_of_none.
  - intros w nm series Herr Hjson Hnumeric Htotal.
    rewrite estimateDownloadsLastYear_outcome. cbv zeta.
    rewrite Herr, Hjson, downloads_quality_numeric by done.
    unfold of_N. rewrite score_inverse by lia. eexists. split; [done|].
    destruct (score_inverse_bounds (Z.of_N (total_downloads series))) as [H0 H1]; [lia|].
    split; [done|]. by apply Qclt_le_weak.
  - intros w nm Herr Hjson. rewrite estimateDownloadsLastYear_outcome. cbv zeta.
    by rewrite Herr, Hjson.
  - apply estimateVersions_range.
Qed.

(** The 999 downloads of the sample score within the range. *)
Lemma score_ranges_witness :
  exists q, outcome (estimateDownloadsLastYear sample_world "pkg") = Done (Finite q)
            /\ (0 <= q <= 1)%Qc.
Proof.
  destruct score_ranges as (_ & _ & H & _).
  apply (H sample_world "pkg"
           [ {| sample_downloads := Some 900%N |}; {| sample_downloads := Some 99%N |} ]).
  - reflexivity.
  - reflexivity.
  - repeat constructor; by eexists.
  - vm_compute. discriminate.
Defined.

(** A single issue, closed, scores 1, which is not below 1. *)
Lemma issue_score_reaches_one :
  outcome (estimateRepo closed_world (Some sample_repo)) = Done (Finite 1)
  /\ ~ (1 < 1)%Qc.
Proof. split; [by_evaluation|]. by vm_compute. Qed.

(** A download series that sums to 0, and a versions object without a
    version, score [1 - 1/0], which is minus infinity. *)
Theorem zero_count_scores_minus_infinity :
  (forall (w : World) (nm : string) (series : list DownloadSample),
     error (downloads_api w (downloadsUrl w nm)) = None ->
     json (body (downloads_api w (downloadsUrl w nm)))
     = Json (Some {| downloads := Some series |}) ->
     numeric series -> total_downloads series = 0%N ->
     outcome (estimateDownloadsLastYear w nm) = Done NegInf
     /\ trace (estimateDownloadsLastYear w nm) = [Request NpmStat (downloadsUrl w nm)])
  /\ estimateVersions (Some ∅) = mret NegInf.
Proof.
  split; [|reflexivity].
  intros w nm series Herr Hjson Hnumeric Htotal.
  rewrite estimateDownloadsLastYear_outcome, estimateDownloadsLastYear_trace. cbv zeta.
  rewrite Herr, Hjson, downloads_quality_numeric by done. by rewrite Htotal.
Qed.

(** A series of one day without a download. *)
Lemma zero_count_scores_minus_infinity_witness :
  outcome (estimateDownloadsLastYear
             (with_downloads sample_world (reply_ok "{...}" (Some (series_of [0%N]))))
             "pkg")
  = Done NegInf.
Proof.
  destruct zero_count_scores_minus_infinity as [H _].
  apply (H (with_downloads sample_world (reply_ok "{...}" (Some (series_of [0%N]))))
           "pkg" [ {| sample_downloads := Some 0%N |} ]).
  - reflexivity.
  - reflexivity.
  - repeat constructor; by eexists.
  - reflexivity.
Defined.

(** ** The stages of the pipeline *)

Section Stages.
Context (w : World) (nm : string).

(** A stage passes on a product that is not strictly positive. *)
Lemma task_downloads_skip q :
  gt q zero = false -> task_downloads w nm q = mret q.
Proof. intros H. unfold task_downloads. by rewrite H. Qed.

Lemma task_registry_skip q :
  gt q zero = false -> task_registry w nm q = mret (q, None).
Proof. intros H. unfold task_registry. by rewrite H. Qed.

Lemma task_versions_skip q registryResponse :
  gt q zero = false -> task_versions (q, registryResponse) = mret q.
Proof. intros H. unfold task_versions. by rewrite H. Qed.

(** The version stage reads the registry reply under a positive product. *)
Lemma task_versions_reads (q : number) (registryResponse : RegistryResponse) :
  gt q zero = true ->
  task_versions (q, Some registryResponse)
  = estimateVersions (versions registryResponse) ≫= (fun v => mret (mul q v)).
Proof. intros H. unfold task_versions. by rewrite H. Qed.

(** What a stage passes on under a positive product. *)
Lemma task_downloads_outcome q :
  gt q zero = true ->
  outcome (task_downloads w nm q) =
  match outcome (estimateDownloadsLastYear w nm) with
  | Done downloadsQuality => Done (mul q downloadsQuality)
  | Failed err => Failed err
  | Thrown exception => Thrown exception
  end.
Proof.
  intros H. unfold task_downloads. rewrite H, outcome_bind.
  by destruct (outcome _).
Qed.

Lemma task_registry_outcome q :
  gt q zero = true ->
  outcome (task_registry w nm q) =
  let reply := registry_api w (registryUrl nm) in
  match error reply with
  | Some _ =>
      match response reply with
      | None => Thrown (TypeError "statusCode" "undefined")
      | Some _ => Done (zero, None)
      end
  | None =>
      match json (body reply) with
      | SyntaxError _ => Done (zero, None)
      | Json registryResponse => Done (q, registryResponse)
      end
  end.
Proof.
  intros H. unfold task_registry. rewrite H, outcome_bind.
  cbn [request outcome]. cbv zeta. destruct (error _).
  - destruct (response _); [|done]. by case_decide.
  - by destruct (json _).
Qed.

(** The download stage sends its requests to one service. *)
Lemma task_downloads_only_to q :
  only_to NpmStat (trace (task_downloads w nm q)) = true.
Proof.
  unfold task_downloads. destruct (gt q zero); [|done].
  rewrite trace_bind.
  pose proof (estimateDownloadsLastYear_only_to w nm) as H.
  destruct (outcome _); [|done..]. by rewrite only_to_app, H.
Qed.

(** The waterfall, task after task. *)
Lemma waterfall_stages (e : PackageEntry) :
  waterfall w e nm
  = ((task_repo w e ≫= task_downloads w nm) ≫= task_registry w nm) ≫= task_versions.
Proof. unfold waterfall. by rewrite !bind_assoc. Qed.

(** Once the product is not positive, what remains of the pipeline
    passes it on and adds nothing to the trace. *)
Lemma after_repo_skip q :
  gt q zero = false ->
  (task_downloads w nm q ≫= task_registry w nm) ≫= task_versions = mret q.
Proof.
  intros H. rewrite (task_downloads_skip _ H), bind_ret.
  rewrite (task_registry_skip _ H), bind_ret.
  by apply task_versions_skip.
Qed.

Lemma after_downloads_skip q :
  gt q zero = false -> task_registry w nm q ≫= task_versions = mret q.
Proof.
  intros H. rewrite (task_registry_skip _ H), bind_ret.
  by apply task_versions_skip.
Qed.

(** An entry with a name enters the waterfall. *)
Lemma estimate_named (e : PackageEntry) :
  name e = Some nm -> nm ≠ "" -> estimate w (Some e) = waterfall w e nm.
Proof.
  intros Hname Hnm. unfold estimate. rewrite Hname. simpl.
  by destruct nm.
Qed.

End Stages.

(** ** Entries without a name *)

(** C7. For an entry that is null, or whose name is absent or empty,
    [estimate] fails at once with an error that quotes the entry, and
    sends no request: all it does is log the error. *)
Theorem estimate_nameless (w : World) (entry : option PackageEntry) :
  nameless entry ->
  outcome (estimate w entry)
  = Failed (JSON_stringify w entry +:+ " is null or has no name")
  /\ trace (estimate w entry)
     = [LogError ("null entry or entry without name: " +:+ JSON_stringify w entry) []]
  /\ (forall service uri, Request service uri ∉ trace (estimate w entry)).
Proof.
  intros Hnameless.
  assert (estimate w entry
          = Run (Failed (JSON_stringify w entry +:+ " is null or has no name"))
              [LogError ("null entry or entry without name: "
                         +:+ JSON_stringify w entry) []]) as ->.
  { destruct entry as [e|]; [|done].
    unfold estimate. by destruct Hnameless as [-> | ->]. }
  repeat split. intros service uri Hin.
  apply list_elem_of_singleton in Hin. discriminate.
Qed.

(** An entry whose name is the empty string. *)
Lemma estimate_nameless_witness :
  outcome (estimate sample_world (Some {| name := Some ""; repository := Some sample_repo |}))
  = Failed "{...} is null or has no name".
Proof.
  apply (estimate_nameless sample_world
           (Some {| name := Some ""; repository := Some sample_repo |})).
  simpl. by right.
Defined.

(** ** Short circuit *)

(** C2. A stage after the repository stage acts only on a running
    product that is strictly positive: otherwise it passes the product
    on. So once the running product is 0, after the repository stage,
    the download stage or the registry stage, nothing more is fetched
    and [estimate] returns exactly 0. *)
Theorem short_circuit (w : World) (e : PackageEntry) (nm : string) :
  name e = Some nm -> nm ≠ "" ->
  (forall q, gt q zero = false ->
     task_downloads w nm q = mret q
     /\ task_registry w nm q = mret (q, None)
     /\ forall registryResponse, task_versions (q, registryResponse) = mret q)
  /\ (outcome (task_repo w e) = Done zero ->
      estimate w (Some e) = Run (Done zero) (trace (task_repo w e))
      /\ forall service uri,
           Request service uri ∈ trace (estimate w (Some e)) -> service = GithubIssues)
  /\ (outcome (task_repo w e ≫= task_downloads w nm) = Done zero ->
      estimate w (Some e)
      = Run (Done zero) (trace (task_repo w e ≫= task_downloads w nm))
      /\ forall service uri,
           Request service uri ∈ trace (estimate w (Some e)) -> service ≠ NpmRegistry)
  /\ (forall registryResponse,
      outcome ((task_repo w e ≫= task_downloads w nm) ≫= task_registry w nm)
      = Done (zero, registryResponse) ->
      estimate w (Some e)
      = Run (Done zero)
          (trace ((task_repo w e ≫= task_downloads w nm) ≫= task_registry w nm))).
Proof.
  intros Hname Hnm. rewrite (estimate_named w nm e Hname Hnm).
  split; [|split; [|split]].
  - intros q Hq. split; [|split].
    + by apply task_downloads_skip.
    + by apply task_registry_skip.
    + intros r. by apply task_versions_skip.
  - intros Hrepo.
    assert (waterfall w e nm = Run (Done zero) (trace (task_repo w e))) as ->.
    { rewrite waterfall_stages, !bind_assoc.
      apply (bind_mret_done _ _ zero); [done|].
      rewrite <- bind_assoc. by apply after_repo_skip. }
    split; [done|]. intros service uri. cbn [trace].
    apply only_to_spec, estimateRepo_only_to.
  - intros Hdown.
    assert (waterfall w e nm
            = Run (Done zero) (trace (task_repo w e ≫= task_downloads w nm))) as ->.
    { rewrite waterfall_stages, bind_assoc.
      apply (bind_mret_done _ _ zero); [done|]. by apply after_downloads_skip. }
    split; [done|]. intros service uri. cbn [trace]. rewrite trace_bind.
    pose proof (estimateRepo_only_to w (repository e)) as Hr.
    fold (task_repo w e) in Hr.
    destruct (outcome (task_repo w e)) as [q| |].
    + rewrite elem_of_app. intros [Hin|Hin].
      * by rewrite (only_to_spec _ _ _ _ Hr Hin).
      * by rewrite (only_to_spec _ _ _ _ (task_downloads_only_to w nm q) Hin).
    + intros Hin. by rewrite (only_to_spec _ _ _ _ Hr Hin).
    + intros Hin. by rewrite (only_to_spec _ _ _ _ Hr Hin).
  - intros r Hreg. rewrite waterfall_stages.
    apply (bind_mret_done _ _ (zero, r)); [done|]. by apply task_versions_skip.
Qed.

(** Without a repository, [estimate] returns 0 and sends nothing; with
    a single download in the year, it returns 0 and sends nothing to
    the registry. *)
Lemma short_circuit_witness :
  estimate sample_world (Some unlocated_entry) = Run (Done zero) []
  /\ estimate one_download_world (Some sample_entry)
     = Run (Done zero)
         [Request GithubIssues
            "https://api.github.com/repos/owner/repo/issues?per_page=1000&state=all";
          Request NpmStat
            "http://npm-stat.com/downloads/range/2013-06-01:2014-06-01/pkg"].
Proof.
  split.
  - destruct (short_circuit sample_world unlocated_entry "pkg") as (_ & H & _);
      [reflexivity|discriminate|].
    apply H. reflexivity.
  - destruct (short_circuit one_download_world sample_entry "pkg") as (_ & _ & H & _);
      [reflexivity|discriminate|].
    destruct H as [-> _]; [by_evaluation|]. reflexivity.
Defined.

(** ** Replies that cannot be parsed *)

(** C3. A body that cannot be parsed aborts [estimate] with an error
    and no score when it is the issue list or the download series; when
    it is the registry metadata, the running product becomes 0 and
    [estimate] returns it. *)
Theorem unparseable_body (w : World) (e : PackageEntry) (nm exception : string) :
  name e = Some nm -> nm ≠ "" ->
  (forall owner repo_name,
     outcome (extractRepoInfo (repository e)) = Done (InfoValid owner repo_name) ->
     error (issues_api w (issuesUrl owner repo_name)) = None ->
     json (body (issues_api w (issuesUrl owner repo_name))) = SyntaxError exception ->
     outcome (estimate w (Some e))
     = Failed ("Invalid issues in " +:+ text (body (issues_api w (issuesUrl owner repo_name)))
               +:+ ": " +:+ exception))
  /\ (forall q,
     outcome (task_repo w e) = Done q -> gt q zero = true ->
     error (downloads_api w (downloadsUrl w nm)) = None ->
     json (body (downloads_api w (downloadsUrl w nm))) = SyntaxError exception ->
     outcome (estimate w (Some e))
     = Failed ("Could not parse " +:+ nm +:+ ": " +:+ exception))
  /\ (forall q,
     outcome (task_repo w e ≫= task_downloads w nm) = Done q -> gt q zero = true ->
     error (registry_api w (registryUrl nm)) = None ->
     json (body (registry_api w (registryUrl nm))) = SyntaxError exception ->
     outcome (estimate w (Some e)) = Done zero).
Proof.
  intros Hname Hnm. rewrite (estimate_named w nm e Hname Hnm).
  split; [|split].
  - intros owner repo_name Hinfo Herr Hjson.
    unfold waterfall. rewrite outcome_bind. unfold task_repo.
    rewrite (estimateRepo_outcome w _ owner repo_name Hinfo). cbv zeta.
    by rewrite Herr, Hjson.
  - intros q Hrepo Hq Herr Hjson.
    unfold waterfall. rewrite outcome_bind, Hrepo, outcome_bind.
    rewrite (task_downloads_outcome w nm q Hq), estimateDownloadsLastYear_outcome.
    cbv zeta. by rewrite Herr, Hjson.
  - intros q Hdown Hq Herr Hjson.
    rewrite waterfall_stages, outcome_bind, outcome_bind, Hdown.
    rewrite (task_registry_outcome w nm q Hq). cbv zeta. rewrite Herr, Hjson.
    by rewrite task_versions_skip.
Qed.

(** Each service in turn answers with a page of HTML. *)
Lemma unparseable_body_witness :
  outcome (estimate (with_issues sample_world reply_html) (Some sample_entry))
  = Failed "Invalid issues in <html>: SyntaxError: Unexpected token <"
  /\ outcome (estimate (with_downloads sample_world reply_html) (Some sample_entry))
     = Failed "Could not parse pkg: SyntaxError: Unexpected token <"
  /\ outcome (estimate (with_registry sample_world reply_html) (Some sample_entry))
     = Done zero.
Proof.
  split; [|split].
  - destruct (unparseable_body (with_issues sample_world reply_html) sample_entry
                "pkg" "SyntaxError: Unexpected token <") as (H & _ & _);
      [reflexivity|discriminate|].
    apply (H "owner" "repo"); reflexivity.
  - destruct (unparseable_body (with_downloads sample_world reply_html) sample_entry
                "pkg" "SyntaxError: Unexpected token <") as (_ & H & _);
      [reflexivity|discriminate|].
    apply (H (Finite (1 - Qc_of_Z 2 / Qc_of_Z 3))); reflexivity.
  - destruct (unparseable_body (with_registry sample_world reply_html) sample_entry
                "pkg" "SyntaxError: Unexpected token <") as (_ & _ & H);
      [reflexivity|discriminate|].
    apply (H (mul (Finite (1 - Qc_of_Z 2 / Qc_of_Z 3))
                  (Finite (1 - 1 / Qc_of_Z 999)))); reflexivity.
Defined.

(** ** The consolidated score *)

(** The pipeline multiplies the three scores: the issue score, which
    may be 0, and a download score and a version score that are
    strictly positive. *)
Lemma estimate_product (w : World) (e : PackageEntry) (nm : string)
    (i d v : Qc) (registryResponse : RegistryResponse) :
  name e = Some nm -> nm ≠ "" ->
  outcome (estimateRepo w (repository e)) = Done (Finite i) -> (0 <= i)%Qc ->
  outcome (estimateDownloadsLastYear w nm) = Done (Finite d) -> (0 < d)%Qc ->
  error (registry_api w (registryUrl nm)) = None ->
  json (body (registry_api w (registryUrl nm))) = Json (Some registryResponse) ->
  outcome (estimateVersions (versions registryResponse)) = Done (Finite v) ->
  outcome (estimate w (Some e)) = Done (Finite (i * d * v)).
Proof.
  intros Hname Hnm Hrepo Hi Hdown Hd Herr Hjson Hv.
  rewrite (estimate_named w nm e Hname Hnm), waterfall_stages.
  destruct (Qcle_lt_or_eq _ _ Hi) as [Hpos| <-].
  - rewrite !outcome_bind. unfold task_repo. rewrite Hrepo.
    rewrite task_downloads_outcome by (by apply gt_zero_finite).
    rewrite Hdown. cbn [mul].
    assert (0 < i * d)%Qc as Hid by (by apply Qcmult_pos_pos).
    rewrite task_registry_outcome by (by apply gt_zero_finite).
    cbv zeta. rewrite Herr, Hjson. unfold task_versions.
    rewrite (proj2 (gt_zero_finite _) Hid), outcome_bind.
    by rewrite Hv.
  - rewrite !bind_assoc. rewrite outcome_bind. unfold task_repo. rewrite Hrepo.
    rewrite <- bind_assoc, after_repo_skip by done.
    cbn. do 2 f_equal. ring.
Qed.

(** C1. When the issue score and the download score are strictly
    positive and the registry reply holds a versions object of at least
    two versions, [estimate] returns the product of the issue score, the
    download score and the version score, and this product lies strictly
    between 0 and 1. *)
Theorem positive_signals (w : World) (e : PackageEntry) (nm : string)
    (i d : Qc) (m : VersionSet) :
  name e = Some nm -> nm ≠ "" ->
  outcome (estimateRepo w (repository e)) = Done (Finite i) -> (0 < i)%Qc ->
  outcome (estimateDownloadsLastYear w nm) = Done (Finite d) -> (0 < d)%Qc ->
  error (registry_api w (registryUrl nm)) = None ->
  json (body (registry_api w (registryUrl nm))) = Json (Some {| versions := Some m |}) ->
  2 <= size m ->
  exists v,
    outcome (estimateVersions (Some m)) = Done (Finite v)
    /\ outcome (estimate w (Some e)) = Done (Finite (i * d * v))
    /\ (0 < i * d * v < 1)%Qc.
Proof.
  intros Hname Hnm Hrepo Hi Hdown Hd Herr Hjson Hsize.
  destruct (estimateVersions_positive m Hsize) as (v & Hv & Hv0 & Hv1).
  destruct (estimateRepo_range w _ _ Hrepo) as (i' & [= <-] & _ & Hi1).
  destruct (estimateDownloadsLastYear_finite w nm d Hdown) as [_ Hd1].
  exists v. split; [done|]. split; [|by apply product_range].
  apply (estimate_product w e nm i d v {| versions := Some m |}); try done.
  by apply Qclt_le_weak.
Qed.

(** The sample world: four versions. *)
Lemma positive_signals_witness :
  exists v,
    outcome (estimateVersions (Some sample_versions)) = Done (Finite v)
    /\ outcome (estimate sample_world (Some sample_entry))
       = Done (Finite ((1 - Qc_of_Z 2 / Qc_of_Z 3) * (1 - 1 / Qc_of_Z 999) * v))
    /\ (0 < (1 - Qc_of_Z 2 / Qc_of_Z 3) * (1 - 1 / Qc_of_Z 999) * v < 1)%Qc.
Proof.
  apply (positive_signals sample_world sample_entry "pkg"
           (1 - Qc_of_Z 2 / Qc_of_Z 3) (1 - 1 / Qc_of_Z 999) sample_versions).
  - reflexivity.
  - discriminate.
  - reflexivity.
  - by vm_compute.
  - reflexivity.
  - by vm_compute.
  - reflexivity.
  - reflexivity.
  - vm_compute. lia.
Defined.

(** With a single version the version score is 0, and so is the
    product of three scores of which the other two are positive. *)
Lemma single_version_scores_zero :
  (exists i, outcome (estimateRepo single_version_world (repository sample_entry))
             = Done (Finite i) /\ (0 < i)%Qc)
  /\ (exists d, outcome (estimateDownloadsLastYear single_version_world "pkg")
                = Done (Finite d) /\ (0 < d)%Qc)
  /\ error (registry_api single_version_world (registryUrl "pkg")) = None
  /\ json (body (registry_api single_version_world (registryUrl "pkg")))
     = Json (Some {| versions := Some single_version |})
  /\ outcome (estimate single_version_world (Some sample_entry)) = Done (Finite 0).
Proof.
  split; [|split; [|split; [|split]]].
  - exists (1 - Qc_of_Z 2 / Qc_of_Z 3)%Qc. split; [reflexivity|by vm_compute].
  - exists (1 - 1 / Qc_of_Z 999)%Qc. split; [reflexivity|by vm_compute].
  - reflexivity.
  - reflexivity.
  - by_evaluation.
Qed.

(** ** Monotonicity in the issues *)

(** C9. Take two runs that differ only in the issue list fetched, both
    lists with at least one issue, the download score and the version
    score being the same strictly positive numbers in both. If the share
    of open issues is strictly lower in the second run, the score
    [estimate] returns is strictly greater in the second run. *)
Theorem fewer_open_issues_score_higher (w : World) (e : PackageEntry)
    (nm owner repo_name : string) (reply1 reply2 : Reply (option (list Issue)))
    (issues1 issues2 : list Issue) (d v : Qc) (registryResponse : RegistryResponse) :
  name e = Some nm -> nm ≠ "" ->
  outcome (extractRepoInfo (repository e)) = Done (InfoValid owner repo_name) ->
  error reply1 = None -> json (body reply1) = Json (Some issues1) -> issues1 ≠ [] ->
  error reply2 = None -> json (body reply2) = Json (Some issues2) -> issues2 ≠ [] ->
  (open_ratio issues2 < open_ratio issues1)%Qc ->
  outcome (estimateDownloadsLastYear w nm) = Done (Finite d) -> (0 < d)%Qc ->
  error (registry_api w (registryUrl nm)) = None ->
  json (body (registry_api w (registryUrl nm))) = Json (Some registryResponse) ->
  outcome (estimateVersions (versions registryResponse)) = Done (Finite v) -> (0 < v)%Qc ->
  exists s1 s2,
    outcome (estimate (with_issues w reply1) (Some e)) = Done (Finite s1)
    /\ outcome (estimate (with_issues w reply2) (Some e)) = Done (Finite s2)
    /\ (s1 < s2)%Qc.
Proof.
  intros Hname Hnm Hinfo Herr1 Hjson1 Hne1 Herr2 Hjson2 Hne2 Hratio
    Hdown Hd Herr Hjson Hv Hvpos.
  destruct (estimateRepo_ratio (with_issues w reply1) (repository e) owner repo_name issues1)
    as [Hrepo1 Hpos1]; try done.
  destruct (estimateRepo_ratio (with_issues w reply2) (repository e) owner repo_name issues2)
    as [Hrepo2 Hpos2]; try done.
  exists ((1 - open_ratio issues1) * d * v)%Qc, ((1 - open_ratio issues2) * d * v)%Qc.
  split; [|split].
  - by apply (estimate_product _ e nm _ d v registryResponse).
  - by apply (estimate_product _ e nm _ d v registryResponse).
  - apply (proj1 (Qcmult_lt_mono_pos_r _ _ _ Hvpos)).
    apply (proj1 (Qcmult_lt_mono_pos_r _ _ _ Hd)).
    by apply one_minus_lt.
Qed.

(** From two open issues out of three to one closed issue. *)
Lemma fewer_open_issues_score_higher_witness :
  exists s1 s2,
    outcome (estimate (with_issues sample_world (reply_ok "[...]" (Some sample_issues)))
               (Some sample_entry)) = Done (Finite s1)
    /\ outcome (estimate (with_issues sample_world (reply_ok "[...]" (Some closed_issues)))
                  (Some sample_entry)) = Done (Finite s2)
    /\ (s1 < s2)%Qc.
Proof.
  apply (fewer_open_issues_score_higher sample_world sample_entry "pkg" "owner" "repo"
           (reply_ok "[...]" (Some sample_issues)) (reply_ok "[...]" (Some closed_issues))
           sample_issues closed_issues
           (1 - 1 / Qc_of_Z 999) (1 - 1 / Qc_of_Z 4) {| versions := Some sample_versions |}).
  all: try reflexivity; try discriminate; by vm_compute.
Defined.

(** With a single download in the year the download score is 0, and
    both runs return 0 although the second has fewer open issues. *)
Lemma zero_download_score_levels_runs :
  (open_ratio closed_issues < open_ratio sample_issues)%Qc
  /\ outcome (estimateDownloadsLastYear one_download_world "pkg") = Done (Finite 0)
  /\ outcome (estimate (with_issues one_download_world (reply_ok "[...]" (Some sample_issues)))
                (Some sample_entry)) = Done (Finite 0)
  /\ outcome (estimate (with_issues one_download_world (reply_ok "[...]" (Some closed_issues)))
                (Some sample_entry)) = Done (Finite 0).
Proof.
  split; [by vm_compute|]. split; [by_evaluation|]. split; by_evaluation.
Qed.

(** ** The registry reply *)

(** C10, as the program has it: a registry body that parses to [null]
    is passed on with a positive product, and reading its [versions]
    throws. *)
Lemma null_registry_body_throws :
  outcome ((task_repo null_registry_world sample_entry
            ≫= task_downloads null_registry_world "pkg")
           ≫= task_registry null_registry_world "pkg")
  = Done (mul (Finite (1 - Qc_of_Z 2 / Qc_of_Z 3)) (Finite (1 - 1 / Qc_of_Z 999)), None)
  /\ gt (mul (Finite (1 - Qc_of_Z 2 / Qc_of_Z 3)) (Finite (1 - 1 / Qc_of_Z 999))) zero = true
  /\ outcome (estimate null_registry_world (Some sample_entry))
     = Thrown (TypeError "versions" "null").
Proof. repeat split; reflexivity. Qed.

(** ** Splitting *)

Lemma append_empty_r (s : string) : s +:+ "" = s.
Proof. induction s as [|c s IH]; [done|]. by rewrite append_cons, IH. Qed.

Lemma rev_app_append (piece acc s : string) :
  String.rev_app piece acc +:+ s = String.rev_app piece (acc +:+ s).
Proof.
  revert acc. induction piece as [|c piece IH]; intros acc; [done|].
  cbn [String.rev_app]. by rewrite IH.
Qed.

Lemma rev_cons_append (c : Ascii.ascii) (piece s : string) :
  String.rev (String c piece) +:+ s = String.rev piece +:+ String c s.
Proof. unfold String.rev. cbn [String.rev_app]. by rewrite !rev_app_append. Qed.

(** Where a separator of one character occurs first. *)
Lemma indexOf_char_cons (c a : Ascii.ascii) (s : string) :
  Str.indexOf (String a s) (String c "")
  = if decide (c = a) then Some 0
    else match Str.indexOf s (String c "") with
         | Some n => Some (S n)
         | None => None
         end.
Proof.
  unfold Str.indexOf. cbn [String.index String.prefix].
  destruct (Ascii.ascii_dec c a) as [->|Hne].
  - by rewrite prefix_empty, decide_True.
  - by rewrite decide_False.
Qed.

Lemma slash_free_cons (a : Ascii.ascii) (s : string) :
  slash_free (String a s) <-> String a "" ≠ "/" /\ slash_free s.
Proof.
  unfold slash_free. rewrite indexOf_char_cons.
  case_decide as Heq.
  - subst a. split; [intros [=]|]. intros [H _]. by destruct H.
  - destruct (Str.indexOf s "/"); split; try done.
    + by intros [_ ?].
    + intros _. split; [|done]. intros [= ->]. by destruct Heq.
Qed.

(** A piece is read up to the next [/]. *)
Lemma split_from_piece (piece s : string) :
  slash_free s ->
  Str.split_from "/" 0 piece s = [String.rev piece +:+ s].
Proof.
  revert piece. induction s as [|a s IH]; intros piece Hfree.
  - cbn [Str.split_from]. by rewrite append_empty_r.
  - apply slash_free_cons in Hfree as [Hne Hfree].
    cbn [Str.split_from String.prefix].
    destruct (Ascii.ascii_dec _ a) as [<-|_]; [done|].
    by rewrite IH, rev_cons_append.
Qed.

Lemma split_from_slash (piece s rest : string) :
  slash_free s ->
  Str.split_from "/" 0 piece (s +:+ "/" +:+ rest)
  = (String.rev piece +:+ s) :: Str.split_from "/" 0 "" rest.
Proof.
  revert piece. induction s as [|a s IH]; intros piece Hfree.
  - change ("" +:+ "/" +:+ rest) with ("/" +:+ rest). rewrite append_cons.
    change ("" +:+ rest) with rest.
    cbn [Str.split_from String.prefix String.length].
    destruct (Ascii.ascii_dec _ _) as [_|Hne]; [|done].
    rewrite prefix_empty, append_empty_r. done.
  - apply slash_free_cons in Hfree as [Hne Hfree].
    rewrite append_cons. cbn [Str.split_from String.prefix].
    destruct (Ascii.ascii_dec _ a) as [<-|_]; [done|].
    by rewrite IH, rev_cons_append.
Qed.

(** Splitting on [/] undoes joining with [/]. *)
Lemma split_join (pieces : list string) :
  pieces ≠ [] -> Forall slash_free pieces ->
  Str.split (join pieces "/") "/" = pieces.
Proof.
  intros Hne Hfree. unfold Str.split, join.
  induction pieces as [|p pieces IH]; [done|].
  apply Forall_cons in Hfree as [Hp Hfree].
  destruct pieces as [|p' pieces].
  - cbn [String.concat]. by rewrite split_from_piece.
  - change (String.concat "/" (p :: p' :: pieces))
      with (p +:+ "/" +:+ String.concat "/" (p' :: pieces)).
    rewrite split_from_slash by done. by rewrite IH.
Qed.

(** The pieces of a split are free of [/]. *)
Lemma rev_app_slash_free (piece acc : string) :
  slash_free piece -> slash_free acc -> slash_free (String.rev_app piece acc).
Proof.
  revert acc. induction piece as [|c piece IH]; intros acc Hpiece Hacc; [done|].
  apply slash_free_cons in Hpiece as [Hc Hpiece]. cbn [String.rev_app].
  apply IH; [done|]. by apply slash_free_cons.
Qed.

Lemma split_from_slash_free (piece s : string) :
  slash_free piece -> Forall slash_free (Str.split_from "/" 0 piece s).
Proof.
  revert piece. induction s as [|a s IH]; intros piece Hpiece.
  - cbn [Str.split_from]. apply Forall_singleton.
    by apply rev_app_slash_free.
  - cbn [Str.split_from String.prefix].
    destruct (Ascii.ascii_dec _ a) as [<-|Hne].
    + rewrite prefix_empty. cbn [String.length Nat.sub]. apply Forall_cons. split.
      * by apply rev_app_slash_free.
      * by apply IH.
    + apply IH. apply slash_free_cons. split; [|done]. intros [= ->]. by destruct Hne.
Qed.

Lemma split_slash_free (s : string) : Forall slash_free (Str.split s "/").
Proof. by apply split_from_slash_free. Qed.

(** What precedes a position in a string free of [/] is free of [/]. *)
Lemma slice_to_slash_free (s : string) (n : nat) :
  slash_free s -> slash_free (Str.slice_to s n).
Proof.
  unfold Str.slice_to. revert n. induction s as [|a s IH]; intros n Hfree.
  - by destruct n.
  - apply slash_free_cons in Hfree as [Ha Hfree]. destruct n as [|n]; [done|].
    cbn [String.substring]. apply slash_free_cons. split; [done|]. by apply IH.
Qed.

Lemma substringUpTo_slash_free (s str : string) :
  slash_free s -> slash_free (Str.substringUpTo s str).
Proof.
  intros Hfree. unfold Str.substringUpTo. destruct (Str.indexOf s str); [|done].
  by apply slice_to_slash_free.
Qed.

(** ** Locating never fails *)

(** What [extractPieces] returns, by the number of pieces. *)
Lemma extractPieces_cases (remaining : string) (initial : nat) :
  let pieces := Str.split remaining "/" in
  (length pieces ≠ initial + 2 /\
   extractPieces remaining initial
   = Run (Done InfoEmpty) [LogError "Invalid URL %s" [remaining]])
  \/ (exists owner last,
        length pieces = initial + 2
        /\ pieces !! initial = Some owner
        /\ pieces !! (initial + 1) = Some last
        /\ extractPieces remaining initial
           = Run (Done (InfoValid owner (Str.substringUpTo last ".git"))) []).
Proof.
  cbv zeta. unfold extractPieces.
  destruct (decide (length (Str.split remaining "/") ≠ initial + 2)) as [Hne|Heq].
  - by left.
  - right. apply dec_stable in Heq.
    destruct (lookup_lt_is_Some_2 (Str.split remaining "/") initial) as [owner Howner];
      [lia|].
    destruct (lookup_lt_is_Some_2 (Str.split remaining "/") (initial + 1)) as [last Hlast];
      [lia|].
    exists owner, last. by rewrite Howner, Hlast.
Qed.

(** What [extractRepoInfo] returns: [null], or what [extractPieces]
    makes of a URL of type [git]. *)
Lemma extractRepoInfo_cases (repo : option RepoDescriptor) :
  (exists t, extractRepoInfo repo = Run (Done InfoNull) t)
  \/ (exists r remaining initial,
        repo = Some r /\ type r = Some "git"
        /\ extractRepoInfo repo = extractPieces remaining initial).
Proof.
  unfold extractRepoInfo. destruct repo as [r|]; [|left; by eexists].
  destruct (type r) as [ty|] eqn:Hty; [|left; by eexists].
  destruct (url r) as [u|] eqn:Hurl; [|left; destruct ty; by eexists].
  destruct (falsy (Some ty) || falsy (Some u)); [left; by eexists|].
  cbn [default from_option]. unfold id.
  case_decide as Hgit; [left; by eexists|].
  subst ty. right. exists r. repeat case_match; eexists _, _; by rewrite ?Hty.
Qed.

Lemma quiet_spec (t : list event) (service : endpoint) (uri : string) :
  quiet t = true -> Request service uri ∉ t.
Proof.
  unfold quiet. rewrite forallb_forall. intros H Hin.
  apply list_elem_of_In, H in Hin. discriminate.
Qed.

(** [extractRepoInfo] always returns. *)
Lemma extractRepoInfo_done (repo : option RepoDescriptor) :
  exists info, outcome (extractRepoInfo repo) = Done info.
Proof.
  destruct (extractRepoInfo_cases repo) as [[t ->]|(r & remaining & initial & _ & _ & ->)].
  - by eexists.
  - destruct (extractPieces_cases remaining initial)
      as [[_ ->]|(owner & last & _ & _ & _ & ->)]; by eexists.
Qed.

(** Locating a repository never throws and sends no request. *)
Theorem locating_is_safe (repo : option RepoDescriptor) :
  exists info,
    outcome (extractRepoInfo repo) = Done info
    /\ forall service uri, Request service uri ∉ trace (extractRepoInfo repo).
Proof.
  destruct (extractRepoInfo_done repo) as [info Hinfo].
  exists info. split; [done|]. intros service uri.
  apply quiet_spec, extractRepoInfo_quiet.
Qed.

(** A location that is valid comes from a descriptor of type [git], and
    neither its owner nor its name holds a [/]. *)
Theorem located_well_formed (repo : option RepoDescriptor) (owner name : string) :
  outcome (extractRepoInfo repo) = Done (InfoValid owner name) ->
  (exists r, repo = Some r /\ type r = Some "git")
  /\ slash_free owner /\ slash_free name.
Proof.
  destruct (extractRepoInfo_cases repo) as [[t ->]|(r & remaining & initial & -> & Hty & ->)];
    [done|].
  pose proof (split_slash_free remaining) as Hfree.
  destruct (extractPieces_cases remaining initial)
    as [[_ ->]|(o & last & _ & Ho & Hlast & ->)]; [done|].
  intros [= <- <-]. split; [by exists r|].
  rewrite Forall_lookup in Hfree. split.
  - by apply (Hfree initial).
  - apply substringUpTo_slash_free. by apply (Hfree (initial + 1)).
Qed.

Lemma located_well_formed_witness :
  (exists r, Some sample_repo = Some r /\ type r = Some "git")
  /\ slash_free "owner" /\ slash_free "repo".
Proof.
  apply (located_well_formed (Some sample_repo) "owner" "repo"). reflexivity.
Defined.

(** ** The rules for the URL *)

(** The two prefixes are treated alike. *)
Theorem prefixes_agree (rest : string) :
  extractRepoInfo (Some {| type := Some "git"; url := Some ("git://github.com:" +:+ rest) |})
  = extractRepoInfo (Some {| type := Some "git"; url := Some ("git@github.com:" +:+ rest) |}).
Proof.
  rewrite extractRepoInfo_ssh.
  unfold extractRepoInfo. cbn [type url default from_option]. unfold id.
  rewrite append_cons. cbn [falsy orb]. rewrite <- append_cons.
  rewrite decide_False by (by intros H; apply H).
  assert (Str.startsWith ("git://github.com:" +:+ rest) "git@github.com:" = false) as ->.
  { unfold Str.startsWith. rewrite !append_cons. reflexivity. }
  unfold Str.startsWith. by rewrite prefix_append, substringFrom_prefix.
Qed.

(** Any other URL is split on [/] as a whole: five pieces give the
    owner and the name, which are the fourth and the fifth, the name cut
    where [.git] first occurs; any other number of pieces gives the
    empty object. *)
Theorem locate_path (pieces : list string) :
  let address := join pieces "/" in
  let repo := Some {| type := Some "git"; url := Some address |} in
  pieces ≠ [] -> Forall slash_free pieces -> address ≠ "" ->
  Str.startsWith address "git@github.com:" = false ->
  Str.startsWith address "git://github.com:" = false ->
  (forall owner last,
     length pieces = 5 -> pieces !! 3 = Some owner -> pieces !! 4 = Some last ->
     outcome (extractRepoInfo repo) = Done (InfoValid owner (Str.substringUpTo last ".git")))
  /\ (length pieces ≠ 5 -> outcome (extractRepoInfo repo) = Done InfoEmpty).
Proof.
  cbv zeta. intros Hne Hfree Haddress Hssh Hgit.
  assert (extractRepoInfo (Some {| type := Some "git"; url := Some (join pieces "/") |})
          = extractPieces (join pieces "/") 3) as ->.
  { unfold extractRepoInfo. cbn [type url default from_option]. unfold id.
    destruct (join pieces "/") as [|c address] eqn:E; [done|].
    cbn [falsy orb]. rewrite decide_False by (by intros H; apply H).
    by rewrite Hssh, Hgit. }
  unfold extractPieces. rewrite (split_join pieces Hne Hfree). split.
  - intros owner last Hlen Howner Hlast.
    rewrite decide_False by (intros H; apply H; exact Hlen).
    change (3 + 1) with 4. by rewrite Howner, Hlast.
  - intros Hlen. by rewrite decide_True.
Qed.

Lemma locate_path_witness :
  outcome (extractRepoInfo
             (Some {| type := Some "git"; url := Some "https://github.com/owner/repo.git" |}))
  = Done (InfoValid "owner" "repo").
Proof.
  destruct (locate_path ["https:"; ""; "github.com"; "owner"; "repo.git"]) as [H _].
  - discriminate.
  - repeat constructor.
  - discriminate.
  - reflexivity.
  - reflexivity.
  - apply (H "owner" "repo.git"); reflexivity.
Defined.

(** ** The counters of the loop *)

(** One turn of the loop. *)
Lemma count_issue_run (issue : Issue) (c : counters) :
  count_issue issue c
  = Run (Done (if decide (state issue = Some "open")
               then Counters (open c + 1) (closed c) (total c + 1)
               else if decide (state issue = Some "closed")
                    then Counters (open c) (closed c + 1) (total c + 1)
                    else Counters (open c) (closed c) (total c + 1)))
        (if decide (other_state issue) then [invalid_state_log issue] else []).
Proof.
  unfold count_issue, other_state. cbn [open closed total].
  destruct (decide (state issue = Some "open")) as [Ho|Ho].
  - by rewrite decide_False by (by intros [? _]).
  - destruct (decide (state issue = Some "closed")) as [Hc|Hc].
    + by rewrite decide_False by (by intros [_ ?]).
    + by rewrite decide_True.
Qed.

Lemma forEach_count_issue_run (issues : list Issue) (c : counters) :
  exists c',
    forEach issues count_issue c
    = Run (Done c') (invalid_state_log <$> filter other_state issues)
    /\ total c' = total c + length issues
    /\ open c' = open c + length (filter (fun issue => state issue = Some "open") issues)
    /\ closed c' = closed c + length (filter (fun issue => state issue = Some "closed") issues).
Proof.
  revert c. induction issues as [|issue issues IH]; intros c.
  - exists c. cbn. repeat split; lia.
  - cbn [forEach]. rewrite count_issue_run, !filter_cons.
    match goal with |- context [Run (Done ?c1) _ ≫= _] => destruct (IH c1) as (c' & E & Ht & Ho & Hc) end.
    exists c'. split.
    { unfold mbind, run_bind. cbn [outcome trace]. rewrite E. cbn [outcome trace].
      f_equal. by destruct (decide (other_state issue)). }
    unfold other_state in *.
    destruct (decide (state issue = Some "open")) as [Ho'|Ho'];
      [|destruct (decide (state issue = Some "closed")) as [Hc'|Hc']];
      cbn [open closed total length] in *.
    + rewrite decide_False by congruence. cbn [length]. repeat split; lia.
    + cbn [length]. repeat split; lia.
    + repeat split; lia.
Qed.

(** Every issue is open, closed or of another state. *)
Lemma states_partition (issues : list Issue) :
  length (filter (fun issue => state issue = Some "open") issues)
  + length (filter (fun issue => state issue = Some "closed") issues)
  + length (filter other_state issues)
  = length issues.
Proof.
  induction issues as [|issue issues IH]; [done|].
  rewrite !filter_cons. unfold other_state in *.
  destruct (decide (state issue = Some "open")) as [Ho|Ho];
    [|destruct (decide (state issue = Some "closed")) as [Hc|Hc]].
  - rewrite decide_False by congruence. rewrite decide_False by (by intros [? _]).
    cbn [length]. lia.
  - rewrite decide_False by (by intros [_ ?]). cbn [length]. lia.
  - rewrite decide_True by done. cbn [length]. lia.
Qed.

(** The loop over the issues counts every issue once: as open, as
    closed, or with an error in the log; the log follows the order of
    the list. *)
Theorem issue_counters (issues : list Issue) :
  exists c,
    forEach issues count_issue (Counters 0 0 0)
    = Run (Done c) (invalid_state_log <$> filter other_state issues)
    /\ total c = length issues
    /\ open c = length (filter (fun issue => state issue = Some "open") issues)
    /\ closed c = length (filter (fun issue => state issue = Some "closed") issues)
    /\ open c + closed c + length (filter other_state issues) = total c.
Proof.
  destruct (forEach_count_issue_run issues (Counters 0 0 0)) as (c & E & Ht & Ho & Hc).
  exists c. cbn [open closed total] in *. repeat split; try done.
  rewrite Ht, Ho, Hc. apply states_partition.
Qed.

(** ** Replies that are not an issue list *)

(** The one error that [estimateRepo] passes to its callback. *)
Lemma estimateRepo_failed (w : World) (repo : option RepoDescriptor) (err : string) :
  outcome (estimateRepo w repo) = Failed err ->
  exists owner name exception,
    outcome (extractRepoInfo repo) = Done (InfoValid owner name)
    /\ error (issues_api w (issuesUrl owner name)) = None
    /\ json (body (issues_api w (issuesUrl owner name))) = SyntaxError exception
    /\ err = "Invalid issues in " +:+ text (body (issues_api w (issuesUrl owner name)))
             +:+ ": " +:+ exception.
Proof.
  destruct (extractRepoInfo_done repo) as [[| |owner name] Hinfo].
  - by rewrite (estimateRepo_unlocated w repo _ Hinfo) by auto.
  - by rewrite (estimateRepo_unlocated w repo _ Hinfo) by auto.
  - rewrite (estimateRepo_outcome w repo owner name Hinfo). cbv zeta.
    destruct (error _) eqn:Herr; [done|].
    destruct (json _) as [exception|[issues|]] eqn:Hjson; [|done..].
    intros [= <-]. by exists owner, name, exception.
Qed.

(** What [estimateRepo] does once the reply is there. *)
Lemma estimateRepo_located (w : World) (repo : option RepoDescriptor) (owner name : string) :
  outcome (extractRepoInfo repo) = Done (InfoValid owner name) ->
  estimateRepo w repo
  = Run (outcome (estimateRepo w repo))
      (trace (extractRepoInfo repo)
       ++ Request GithubIssues (issuesUrl owner name)
          :: let reply := issues_api w (issuesUrl owner name) in
             match error reply with
             | Some err =>
                 [LogError ("Could not access issues on " +:+ issuesUrl owner name
                            +:+ ": " +:+ err) []]
             | None =>
                 match json (body reply) with
                 | Json (Some issues) => invalid_state_log <$> filter other_state issues
                 | _ => []
                 end
             end).
Proof.
  intros Hlocated. unfold estimateRepo at 1 2.
  rewrite (bind_done _ _ _ Hlocated). cbn [outcome trace]. f_equal. f_equal.
  rewrite (bind_done (request GithubIssues (issues_api w) (issuesUrl owner name))
             _ _ eq_refl).
  cbn [outcome trace request app]. f_equal. cbv zeta.
  destruct (error _); [done|].
  destruct (json _) as [|[issues|]]; [done| |done].
  rewrite trace_bind.
  destruct (forEach_count_issue_run issues (Counters 0 0 0)) as (c & -> & _).
  cbn [outcome trace]. case_decide; cbn [trace mret run_ret]; by rewrite app_nil_r.
Qed.

(** [estimateRepo] passes an error to its callback only when the body
    of the issue list cannot be parsed. A transport error is logged and
    scores 0, whatever response comes with it. A body that is the JSON
    value [null] throws at [issues.forEach]. A body none of whose values
    has a [state], such as the object with which the tracker reports an
    error, scores 1, each value being logged as of an invalid state. *)
Theorem estimateRepo_replies (w : World) (repo : option RepoDescriptor) :
  (forall err,
      outcome (estimateRepo w repo) = Failed err ->
      exists owner name exception,
        outcome (extractRepoInfo repo) = Done (InfoValid owner name)
        /\ error (issues_api w (issuesUrl owner name)) = None
        /\ json (body (issues_api w (issuesUrl owner name))) = SyntaxError exception
        /\ err = "Invalid issues in " +:+ text (body (issues_api w (issuesUrl owner name)))
                 +:+ ": " +:+ exception)
  /\ (forall owner name err,
      outcome (extractRepoInfo repo) = Done (InfoValid owner name) ->
      error (issues_api w (issuesUrl owner name)) = Some err ->
      estimateRepo w repo
      = Run (Done zero)
          (trace (extractRepoInfo repo)
           ++ [Request GithubIssues (issuesUrl owner name);
               LogError ("Could not access issues on " +:+ issuesUrl owner name
                         +:+ ": " +:+ err) []]))
  /\ (forall owner name,
      outcome (extractRepoInfo repo) = Done (InfoValid owner name) ->
      error (issues_api w (issuesUrl owner name)) = None ->
      json (body (issues_api w (issuesUrl owner name))) = Json None ->
      estimateRepo w repo
      = Run (Thrown (TypeError "forEach" "null"))
          (trace (extractRepoInfo repo) ++ [Request GithubIssues (issuesUrl owner name)]))
  /\ (forall owner name values,
      outcome (extractRepoInfo repo) = Done (InfoValid owner name) ->
      error (issues_api w (issuesUrl owner name)) = None ->
      json (body (issues_api w (issuesUrl owner name))) = Json (Some values) ->
      values ≠ [] -> Forall (fun value => state value = None) values ->
      estimateRepo w repo
      = Run (Done (Finite 1))
          (trace (extractRepoInfo repo)
           ++ Request GithubIssues (issuesUrl owner name)
              :: ((fun _ => LogError "Invalid state %s" ["undefined"]) <$> values))).
Proof.
  split; [|split; [|split]].
  - apply estimateRepo_failed.
  - intros owner name err Hlocated Herr.
    rewrite (estimateRepo_located w repo owner name Hlocated).
    rewrite (estimateRepo_outcome w repo owner name Hlocated). cbv zeta.
    by rewrite Herr.
  - intros owner name Hlocated Herr Hjson.
    rewrite (estimateRepo_located w repo owner name Hlocated).
    rewrite (estimateRepo_outcome w repo owner name Hlocated). cbv zeta.
    by rewrite Herr, Hjson.
  - intros owner name values Hlocated Herr Hjson Hne Hstateless.
    rewrite (estimateRepo_located w repo owner name Hlocated).
    rewrite (estimateRepo_outcome w repo owner name Hlocated). cbv zeta.
    rewrite Herr, Hjson.
    assert (open_issues values = []) as Hopen.
    { unfold open_issues. clear Hne Hjson. induction Hstateless as [|value values Hv _ IH];
        [done|]. rewrite filter_cons, decide_False by congruence. done. }
    assert (invalid_state_log <$> filter other_state values
            = (fun _ => LogError "Invalid state %s" ["undefined"]) <$> values) as ->.
    { clear Hne Hjson Hopen. induction Hstateless as [|value values Hv _ IH]; [done|].
      rewrite filter_cons, decide_True by (unfold other_state; split; congruence).
      rewrite !fmap_cons, IH. unfold invalid_state_log. by rewrite Hv. }
    rewrite decide_False by (by destruct values). rewrite Hopen. cbn [length].
    by rewrite ratio_of_none.
Qed.

(** The object [{ message, documentation_url }] that the tracker answers
    for a repository it does not know. *)
Lemma estimateRepo_replies_witness :
  estimateRepo
    (with_issues sample_world
       (reply_ok "{...}" (Some [ {| state := None |}; {| state := None |} ])))
    (Some sample_repo)
  = Run (Done (Finite 1))
      [Request GithubIssues
         "https://api.github.com/repos/owner/repo/issues?per_page=1000&state=all";
       LogError "Invalid state %s" ["undefined"];
       LogError "Invalid state %s" ["undefined"]].
Proof.
  destruct (estimateRepo_replies
              (with_issues sample_world
                 (reply_ok "{...}" (Some [ {| state := None |}; {| state := None |} ])))
              (Some sample_repo)) as (_ & _ & _ & H).
  apply (H "owner" "repo" [ {| state := None |}; {| state := None |} ]);
    try reflexivity; [discriminate|by repeat constructor].
Defined.

(** ** The three values of [1 - 1 / n] *)

Section Inverse.
Local Open Scope Qc_scope.

Lemma gt_zero_false (q : Qc) : gt (Finite q) zero = false <-> q <= 0.
Proof.
  unfold gt, zero. rewrite bool_decide_eq_false. split.
  - apply Qcnot_lt_le.
  - apply Qcle_not_lt.
Qed.

Lemma inverse_of_one : 1 - 1 / Qc_of_Z 1 = 0.
Proof. rewrite Z2Qc_inj_1. by field. Qed.

(** [1 - 1 / n] is minus infinity at 0, 0 at 1, and strictly between 0
    and 1 from 2 on. *)
Lemma score_inverse_cases (n : Z) :
  (0 <= n)%Z ->
  (n = 0%Z /\ sub one (div one (of_Z n)) = NegInf)
  \/ (n = 1%Z /\ sub one (div one (of_Z n)) = zero)
  \/ ((2 <= n)%Z /\ exists d, sub one (div one (of_Z n)) = Finite d /\ 0 < d < 1).
Proof.
  intros Hn.
  destruct (decide (n = 0%Z)) as [->|H0]; [by left|].
  destruct (decide (n = 1%Z)) as [->|H1].
  - right; left. split; [done|]. rewrite score_inverse by done.
    by rewrite inverse_of_one.
  - right; right. split; [lia|]. rewrite score_inverse by done.
    eexists. split; [done|]. split.
    + apply score_inverse_pos. lia.
    + apply score_inverse_bounds. lia.
Qed.

(** Products with a running product that is strictly positive. *)
Lemma mul_zero_r (q : Qc) : mul (Finite q) zero = zero.
Proof. unfold mul, zero. f_equal. ring. Qed.

Lemma mul_minus_infinity (q : Qc) : 0 < q -> mul (Finite q) NegInf = NegInf.
Proof.
  intros Hq. unfold mul, sign.
  by rewrite (proj1 (Qcgt_alt q 0) Hq).
Qed.

Lemma product_below (q v : Qc) : 0 < q -> q <= 1 -> 0 < v -> v < 1 -> 0 < q * v < 1.
Proof.
  intros Hq Hq1 Hv Hv1. split; [by apply Qcmult_pos_pos|].
  apply Qcle_lt_trans with (1 * v); [|by rewrite Qcmult_1_l].
  apply Qcmult_le_mono_nonneg_r; [|done]. by apply Qclt_le_weak.
Qed.

Lemma product_at_most (q v : Qc) : 0 <= q -> v <= 1 -> q * v <= q.
Proof.
  intros Hq Hv. rewrite <- (Qcmult_1_r q) at 2.
  by apply Qcmult_le_mono_nonneg_l.
Qed.

End Inverse.

(** ** When a signal counts *)

(** The issue score is strictly positive exactly when the repository is
    located, the issue list is fetched and parsed, and at least one of
    its issues is not open. *)
Lemma estimateRepo_positive_iff (w : World) (repo : option RepoDescriptor) :
  (exists s, outcome (estimateRepo w repo) = Done s /\ gt s zero = true)
  <-> exists owner name issues,
        outcome (extractRepoInfo repo) = Done (InfoValid owner name)
        /\ error (issues_api w (issuesUrl owner name)) = None
        /\ json (body (issues_api w (issuesUrl owner name))) = Json (Some issues)
        /\ length (open_issues issues) < length issues.
Proof.
  split.
  - intros (s & Hs & Hpos).
    destruct (extractRepoInfo_done repo) as [info Hinfo].
    destruct info as [| |owner name].
    + rewrite (estimateRepo_unlocated w repo _ Hinfo) in Hs by auto.
      injection Hs as <-. done.
    + rewrite (estimateRepo_unlocated w repo _ Hinfo) in Hs by auto.
      injection Hs as <-. done.
    + exists owner, name. rewrite (estimateRepo_outcome w repo owner name Hinfo) in Hs.
      cbv zeta in Hs. destruct (error _); [by injection Hs as <-|].
      destruct (json _) as [|[issues|]]; [done| |done]. exists issues.
      repeat split; try done.
      case_decide as Hlen; injection Hs as <-; [done|].
      apply gt_zero_finite in Hpos.
      pose proof (length_filter (fun issue => state issue = Some "open") issues) as Hle.
      fold (open_issues issues) in Hle.
      destruct (decide (length (open_issues issues) = length issues)) as [Heq|Hne]; [|lia].
      rewrite Heq, ratio_of_all in Hpos; [done|]. apply Qc_of_Z_nonzero. lia.
  - intros (owner & name & issues & Hinfo & Herr & Hjson & Hlt).
    rewrite (estimateRepo_outcome w repo owner name Hinfo). cbv zeta.
    rewrite Herr, Hjson, decide_False by lia.
    eexists. split; [done|]. apply gt_zero_finite.
    apply one_minus_pos, ratio_lt_one.
    + apply (proj1 (Z2Qc_inj_lt _ _)). lia.
    + apply Qc_of_Z_pos. lia.
Qed.

(** The download score is strictly positive exactly when the series is
    fetched and parsed, every sample has its count, and the counts sum
    to 2 downloads or more. *)
Lemma estimateDownloadsLastYear_positive_iff (w : World) (nm : string) :
  (exists s, outcome (estimateDownloadsLastYear w nm) = Done s /\ gt s zero = true)
  <-> exists series,
        error (downloads_api w (downloadsUrl w nm)) = None
        /\ json (body (downloads_api w (downloadsUrl w nm)))
           = Json (Some {| downloads := Some series |})
        /\ numeric series
        /\ (2 <= total_downloads series)%N.
Proof.
  rewrite estimateDownloadsLastYear_outcome. cbv zeta. split.
  - intros (s & Hs & Hpos). destruct (error _).
    { destruct (response _); [|done]. by injection Hs as <-. }
    destruct (json _) as [|[[[series|]]|]]; [done| |by injection Hs as <-|done].
    exists series. do 2 (split; [done|]). injection Hs as <-.
    destruct (decide (numeric series)) as [Hn|Hn];
      [|by rewrite downloads_quality_nan in Hpos].
    split; [done|]. rewrite downloads_quality_numeric in Hpos by done.
    unfold of_N in Hpos.
    destruct (score_inverse_cases (Z.of_N (total_downloads series)))
      as [[_ E]|[[_ E]|[Hn' _]]]; [lia| | |lia]; by rewrite E in Hpos.
  - intros (series & -> & -> & Hn & Htotal). eexists. split; [done|].
    rewrite downloads_quality_numeric by done. unfold of_N.
    destruct (score_inverse_cases (Z.of_N (total_downloads series)))
      as [[Hn' _]|[[Hn' _]|[_ (d & -> & Hd & _)]]]; [lia..|].
    by apply gt_zero_finite.
Qed.

(** The version score is strictly positive exactly when the versions
    object is present and holds two versions or more. *)
Lemma estimateVersions_positive_iff (versions : option VersionSet) :
  (exists s, outcome (estimateVersions versions) = Done s /\ gt s zero = true)
  <-> exists m, versions = Some m /\ 2 <= size m.
Proof.
  split.
  - intros (s & Hs & Hpos). destruct versions as [m|]; [|by injection Hs as <-].
    exists m. split; [done|].
    assert (s = sub one (div one (of_Z (Z.of_nat (size m))))) as ->
      by (symmetry; exact (f_equal (fun r => if r is Done x then x else s) Hs)).
    destruct (score_inverse_cases (Z.of_nat (size m)))
      as [[_ E]|[[_ E]|[Hn _]]]; [lia| | |lia]; by rewrite E in Hpos.
  - intros (m & -> & Hsize). exists (sub one (div one (of_Z (Z.of_nat (size m))))).
    split; [done|].
    destruct (score_inverse_cases (Z.of_nat (size m)))
      as [[Hn _]|[[Hn _]|[_ (d & -> & Hd & _)]]]; [lia..|].
    by apply gt_zero_finite.
Qed.

(** ** The scores that a count gives *)

Section Counts.
Local Open Scope Qc_scope.

Lemma count_score (n : Z) :
  (0 <= n)%Z -> minus_infinity_or_fraction (sub one (div one (of_Z n))).
Proof.
  intros Hn. unfold minus_infinity_or_fraction.
  destruct (score_inverse_cases n Hn) as [[_ ->]|[[_ ->]|[_ (d & -> & Hd)]]]; eauto.
Qed.

(** The download score is one of these, or NaN when a sample of the
    series lacks its count. *)
Lemma estimateDownloadsLastYear_done (w : World) (nm : string) (d : number) :
  outcome (estimateDownloadsLastYear w nm) = Done d ->
  minus_infinity_or_fraction d
  \/ d = NaN
     /\ exists series,
          json (body (downloads_api w (downloadsUrl w nm)))
          = Json (Some {| downloads := Some series |})
          /\ ~ numeric series.
Proof.
  assert (minus_infinity_or_fraction zero) as Hzero by (right; by left).
  rewrite estimateDownloadsLastYear_outcome. cbv zeta. destruct (error _).
  - destruct (response _); [|done]. intros [= <-]. by left.
  - destruct (json _) as [|[[[series|]]|]]; [done| |intros [= <-]; by left|done].
    intros [= <-]. destruct (decide (numeric series)) as [Hn|Hn].
    + left. rewrite downloads_quality_numeric by done. apply count_score. lia.
    + right. rewrite downloads_quality_nan by done. split; [done|]. by exists series.
Qed.

Lemma estimateVersions_done (versions : option VersionSet) :
  exists v, outcome (estimateVersions versions) = Done v /\ minus_infinity_or_fraction v.
Proof.
  destruct versions as [m|].
  - eexists. split; [done|]. apply count_score. lia.
  - exists zero. split; [done|]. right; by left.
Qed.

Lemma estimateDownloadsLastYear_minus_infinity (w : World) (nm : string) :
  outcome (estimateDownloadsLastYear w nm) = Done NegInf
  <-> exists series,
        error (downloads_api w (downloadsUrl w nm)) = None
        /\ json (body (downloads_api w (downloadsUrl w nm)))
           = Json (Some {| downloads := Some series |})
        /\ numeric series
        /\ total_downloads series = 0%N.
Proof.
  rewrite estimateDownloadsLastYear_outcome. cbv zeta. split.
  - destruct (error _); [by destruct (response _)|].
    destruct (json _) as [|[[[series|]]|]]; [done| |done..].
    intros [= Hs]. exists series. do 2 (split; [done|]).
    destruct (decide (numeric series)) as [Hn|Hn];
      [|by rewrite downloads_quality_nan in Hs].
    split; [done|]. rewrite downloads_quality_numeric in Hs by done. unfold of_N in Hs.
    destruct (score_inverse_cases (Z.of_N (total_downloads series)))
      as [[Hn' _]|[[_ E]|[_ (d & E & _)]]]; [lia|lia|..]; by rewrite E in Hs.
  - intros (series & -> & -> & Hn & Htotal).
    rewrite downloads_quality_numeric by done. by rewrite Htotal.
Qed.

Lemma estimateVersions_minus_infinity (versions : option VersionSet) :
  outcome (estimateVersions versions) = Done NegInf <-> versions = Some ∅.
Proof.
  split.
  - destruct versions as [m|]; [|done]. intros Hs.
    assert (sub one (div one (of_Z (Z.of_nat (size m)))) = NegInf) as Hm
      by exact (f_equal (fun r => if r is Done x then x else NegInf) Hs).
    destruct (score_inverse_cases (Z.of_nat (size m)))
      as [[Hn _]|[[_ E]|[_ (d & E & _)]]]; [lia| |by rewrite E in Hm..].
    f_equal. apply map_size_empty_iff. lia.
  - by intros ->.
Qed.

End Counts.

(** ** The outcome of the pipeline *)

Section Pipeline.
Context (w : World) (e : PackageEntry) (nm : string).

(** The outcome of the waterfall from the outcomes of its stages. *)
Lemma waterfall_outcome :
  outcome (waterfall w e nm) =
  match outcome (estimateRepo w (repository e)) with
  | Done i =>
      if gt i zero then
        match outcome (estimateDownloadsLastYear w nm) with
        | Done d =>
            if gt (mul i d) zero then
              let reply := registry_api w (registryUrl nm) in
              match error reply with
              | Some _ =>
                  match response reply with
                  | None => Thrown (TypeError "statusCode" "undefined")
                  | Some _ => Done zero
                  end
              | None =>
                  match json (body reply) with
                  | SyntaxError _ => Done zero
                  | Json None => Thrown (TypeError "versions" "null")
                  | Json (Some registryResponse) =>
                      match outcome (estimateVersions (versions registryResponse)) with
                      | Done v => Done (mul (mul i d) v)
                      | Failed err => Failed err
                      | Thrown exception => Thrown exception
                      end
                  end
              end
            else Done (mul i d)
        | Failed err => Failed err
        | Thrown exception => Thrown exception
        end
      else Done i
  | Failed err => Failed err
  | Thrown exception => Thrown exception
  end.
Proof.
  rewrite waterfall_stages, !bind_assoc, outcome_bind. unfold task_repo.
  destruct (outcome (estimateRepo w (repository e))) as [i| |]; [|done..].
  rewrite <- bind_assoc.
  destruct (gt i zero) eqn:Hi; [|by rewrite after_repo_skip].
  rewrite bind_assoc, outcome_bind, task_downloads_outcome by done.
  destruct (outcome (estimateDownloadsLastYear w nm)) as [d| |]; [|done..].
  destruct (gt (mul i d) zero) eqn:Hid; [|by rewrite after_downloads_skip].
  rewrite outcome_bind, task_registry_outcome by done. cbv zeta.
  destruct (error _).
  { destruct (response _); [|done]. by rewrite task_versions_skip. }
  destruct (json _) as [|[registryResponse|]].
  - by rewrite task_versions_skip.
  - by rewrite task_versions_reads, outcome_bind.
  - unfold task_versions. by rewrite Hid.
Qed.

End Pipeline.

(** An entry is refused, or it enters the waterfall under its name. *)
Lemma estimate_entry (w : World) (entry : option PackageEntry) :
  (nameless entry /\ estimate w entry = refuse w entry)
  \/ (exists e nm, entry = Some e /\ name e = Some nm /\ nm ≠ ""
                   /\ estimate w entry = waterfall w e nm).
Proof.
  destruct entry as [e|]; [|by left].
  destruct (name e) as [[|c nm]|] eqn:Hname.
  - left. unfold estimate. rewrite Hname. split; [by right|done].
  - right. exists e, (String c nm). repeat split; [done..|].
    by apply estimate_named.
  - left. unfold estimate. rewrite Hname. split; [by left|done].
Qed.

(** ** The range of the consolidated score *)

Section Range.
Local Open Scope Qc_scope.

(** A product that meets a download score that is NaN. *)
Lemma mul_nan (q : Qc) : mul (Finite q) NaN = NaN.
Proof. reflexivity. Qed.

(** A score that [estimate] passes to its callback is minus infinity, or
    a rational that is at least 0 and strictly less than 1, or NaN; and
    it is NaN only when a sample of the download series lacks its
    count, as it is whenever the issue score is strictly positive and a
    sample lacks its count. So it is never plus infinity and never 1. *)
Theorem consolidated_score_range (w : World) (entry : option PackageEntry) :
  (forall s,
     outcome (estimate w entry) = Done s ->
     s = NegInf
     \/ (exists q, s = Finite q /\ 0 ≤ q < 1)
     \/ s = NaN
        /\ exists e nm series,
             entry = Some e /\ name e = Some nm
             /\ json (body (downloads_api w (downloadsUrl w nm)))
                = Json (Some {| downloads := Some series |})
             /\ ~ numeric series)
  /\ (forall e nm i series,
       entry = Some e -> name e = Some nm -> nm ≠ "" ->
       outcome (estimateRepo w (repository e)) = Done i -> gt i zero = true ->
       error (downloads_api w (downloadsUrl w nm)) = None ->
       json (body (downloads_api w (downloadsUrl w nm)))
       = Json (Some {| downloads := Some series |}) ->
       ~ numeric series ->
       outcome (estimate w entry) = Done NaN).
Proof.
  split.
  - intros s.
    assert (forall s, minus_infinity_or_fraction s ->
                      s = NegInf \/ exists q, s = Finite q /\ 0 ≤ q < 1) as Hweak.
    { intros s' [->|[->|(q & -> & Hq0 & Hq1)]]; [by left|right..].
      - by exists 0.
      - exists q. repeat split; [by apply Qclt_le_weak|done]. }
    destruct (estimate_entry w entry) as [[_ ->]|(e & nm & -> & Hname & _ & ->)]; [done|].
    rewrite waterfall_outcome.
    destruct (outcome (estimateRepo w (repository e))) as [i| |] eqn:Hrepo; [|done..].
    destruct (estimateRepo_range w _ _ Hrepo) as (qi & -> & Hi0 & Hi1).
    destruct (gt (Finite qi) zero) eqn:Hi.
    2: { intros [= <-]. right; left. exists qi. repeat split; [done|].
         apply gt_zero_false in Hi. by apply Qcle_lt_trans with 0. }
    apply gt_zero_finite in Hi.
    destruct (outcome (estimateDownloadsLastYear w nm)) as [d| |] eqn:Hdown; [|done..].
    destruct (estimateDownloadsLastYear_done w nm d Hdown)
      as [[->|[->|(qd & -> & Hd0 & Hd1)]]|[-> (series & Hjson & Hn)]].
    + rewrite mul_minus_infinity by done. intros [= <-]. by left.
    + rewrite mul_zero_r. intros [= <-]. right; left. by exists 0.
    + change (mul (Finite qi) (Finite qd)) with (Finite (qi * qd)).
      destruct (product_below qi qd Hi Hi1 Hd0 Hd1) as [Hp0 Hp1].
      rewrite (proj2 (gt_zero_finite _) Hp0). cbv zeta.
      assert (forall P : Prop,
                Done zero = Done s ->
                s = NegInf \/ (exists q, s = Finite q /\ 0 ≤ q < 1) \/ P)
        as Hzero by (intros P [= <-]; right; left; by exists 0).
      destruct (error _); [destruct (response _); [apply Hzero|done]|].
      destruct (json _) as [|[registryResponse|]]; [apply Hzero| |done].
      destruct (estimateVersions_done (versions registryResponse))
        as (v & -> & [->|[->|(qv & -> & Hv0 & Hv1)]]).
      * rewrite mul_minus_infinity by done. intros [= <-]. by left.
      * rewrite mul_zero_r. intros [= <-]. right; left. by exists 0.
      * change (mul (Finite (qi * qd)) (Finite qv)) with (Finite (qi * qd * qv)).
        intros [= <-]. right; left. exists (qi * qd * qv). split; [done|].
        split; [apply Qclt_le_weak|]; apply product_below; try done;
          by apply Qclt_le_weak.
    + rewrite mul_nan. intros [= <-]. right; right. split; [done|].
      by exists e, nm, series.
  - intros e nm i series -> Hname Hnm Hrepo Hi Herr Hjson Hn.
    rewrite (estimate_named w nm e Hname Hnm), waterfall_outcome, Hrepo, Hi.
    rewrite estimateDownloadsLastYear_outcome. cbv zeta.
    rewrite Herr, Hjson, downloads_quality_nan by done.
    destruct (estimateRepo_range w _ _ Hrepo) as (qi & -> & _). by rewrite mul_nan.
Qed.

(** The sample scores within the range; with a sample that lacks its
    count it scores NaN. *)
Lemma consolidated_score_range_witness :
  (Finite ((1 - Qc_of_Z 2 / Qc_of_Z 3) * (1 - 1 / Qc_of_Z 999) * (1 - 1 / Qc_of_Z 4))
   = NegInf
   \/ (exists q,
         Finite ((1 - Qc_of_Z 2 / Qc_of_Z 3) * (1 - 1 / Qc_of_Z 999) * (1 - 1 / Qc_of_Z 4))
         = Finite q /\ 0 ≤ q < 1)
   \/ Finite ((1 - Qc_of_Z 2 / Qc_of_Z 3) * (1 - 1 / Qc_of_Z 999) * (1 - 1 / Qc_of_Z 4))
      = NaN
      /\ exists e nm series,
           Some sample_entry = Some e /\ name e = Some nm
           /\ json (body (downloads_api sample_world (downloadsUrl sample_world nm)))
              = Json (Some {| downloads := Some series |})
           /\ ~ numeric series)
  /\ outcome (estimate
                (with_downloads sample_world
                   (reply_ok "{...}"
                      (Some {| downloads := Some [ {| sample_downloads := None |} ] |})))
                (Some sample_entry))
     = Done NaN.
Proof.
  split.
  - apply (proj1 (consolidated_score_range sample_world (Some sample_entry))).
    by_evaluation.
  - apply (proj2 (consolidated_score_range _ (Some sample_entry))
             sample_entry "pkg" (Finite (1 - Qc_of_Z 2 / Qc_of_Z 3))
             [ {| sample_downloads := None |} ]);
      try reflexivity; try discriminate; try (by vm_compute).
    intros [[? ?] _]%Forall_cons. discriminate.
Defined.

End Range.

(** ** Errors and exceptions *)

(** [estimate] passes an error to its callback in three cases only: the
    entry is null or has no name, the body of the issue list cannot be
    parsed, or the body of the download series cannot be parsed. The
    registry never gives one. *)
Theorem estimate_errors (w : World) (entry : option PackageEntry) (err : string) :
  outcome (estimate w entry) = Failed err ->
  (nameless entry /\ err = JSON_stringify w entry +:+ " is null or has no name")
  \/ exists e nm, entry = Some e /\ name e = Some nm /\
     ((exists owner name exception,
         outcome (extractRepoInfo (repository e)) = Done (InfoValid owner name)
         /\ error (issues_api w (issuesUrl owner name)) = None
         /\ json (body (issues_api w (issuesUrl owner name))) = SyntaxError exception
         /\ err = "Invalid issues in "
                  +:+ text (body (issues_api w (issuesUrl owner name)))
                  +:+ ": " +:+ exception)
      \/ (exists exception,
            error (downloads_api w (downloadsUrl w nm)) = None
            /\ json (body (downloads_api w (downloadsUrl w nm))) = SyntaxError exception
            /\ err = "Could not parse " +:+ nm +:+ ": " +:+ exception)).
Proof.
  destruct (estimate_entry w entry) as [[Hnameless ->]|(e & nm & -> & Hname & _ & ->)].
  { intros [= <-]. by left. }
  rewrite waterfall_outcome. intros Herr. right. exists e, nm. do 2 (split; [done|]).
  destruct (outcome (estimateRepo w (repository e))) as [i|err'|] eqn:Hrepo; [| |done].
  2: { injection Herr as ->. left. by apply estimateRepo_failed. }
  destruct (gt i zero); [|done]. right.
  rewrite estimateDownloadsLastYear_outcome in Herr. cbv zeta in Herr.
  destruct (error (downloads_api _ _)).
  { destruct (response _); [|done]. destruct (gt _ _); [|done].
    destruct (error _); [by destruct (response _)|].
    destruct (json _) as [|[registryResponse|]]; [done| |done].
    by destruct (estimateVersions_done (versions registryResponse)) as (v & Hv & _);
      rewrite Hv in Herr. }
  destruct (json (body (downloads_api _ _))) as [exception|[result|]]; [|
    |done].
  { injection Herr as <-. by exists exception. }
  destruct (gt _ _); [|done].
  destruct (error _); [by destruct (response _)|].
  destruct (json _) as [|[registryResponse|]]; [done| |done].
  by destruct (estimateVersions_done (versions registryResponse)) as (v & Hv & _);
    rewrite Hv in Herr.
Qed.

Lemma estimate_errors_witness :
  (nameless (Some sample_entry)
   /\ "Could not parse pkg: SyntaxError: Unexpected token <"
      = JSON_stringify (with_downloads sample_world reply_html) (Some sample_entry)
        +:+ " is null or has no name")
  \/ exists e nm, Some sample_entry = Some e /\ name e = Some nm /\
     ((exists owner name exception,
         outcome (extractRepoInfo (repository e)) = Done (InfoValid owner name)
         /\ error (issues_api (with_downloads sample_world reply_html)
                     (issuesUrl owner name)) = None
         /\ json (body (issues_api (with_downloads sample_world reply_html)
                          (issuesUrl owner name))) = SyntaxError exception
         /\ "Could not parse pkg: SyntaxError: Unexpected token <"
            = "Invalid issues in "
              +:+ text (body (issues_api (with_downloads sample_world reply_html)
                                (issuesUrl owner name)))
              +:+ ": " +:+ exception)
      \/ (exists exception,
            error (downloads_api (with_downloads sample_world reply_html)
                     (downloadsUrl (with_downloads sample_world reply_html) nm)) = None
            /\ json (body (downloads_api (with_downloads sample_world reply_html)
                             (downloadsUrl (with_downloads sample_world reply_html) nm)))
               = SyntaxError exception
            /\ "Could not parse pkg: SyntaxError: Unexpected token <"
               = "Could not parse " +:+ nm +:+ ": " +:+ exception)).
Proof.
  apply (estimate_errors (with_downloads sample_world reply_html) (Some sample_entry)).
  reflexivity.
Defined.

(** The replies on which [estimate] throws, for an entry with a name.
    An issue body that is the JSON value [null] throws at
    [issues.forEach]. Once the issue score is strictly positive, a fetch
    of the downloads that ends in an error without a response throws at
    [response.statusCode], and a download body that is [null] throws at
    ['downloads' in result]. Once the product of the two scores is
    strictly positive, a fetch of the registry that ends in an error
    without a response throws at [response.statusCode], and a registry
    body that is [null] throws at [registryResponse.versions]. *)
Theorem estimate_exceptions (w : World) (e : PackageEntry) (nm : string) :
  name e = Some nm -> nm ≠ "" ->
  (forall owner name,
     outcome (extractRepoInfo (repository e)) = Done (InfoValid owner name) ->
     error (issues_api w (issuesUrl owner name)) = None ->
     json (body (issues_api w (issuesUrl owner name))) = Json None ->
     outcome (estimate w (Some e)) = Thrown (TypeError "forEach" "null"))
  /\ (forall i,
       outcome (estimateRepo w (repository e)) = Done i -> gt i zero = true ->
       (error (downloads_api w (downloadsUrl w nm)) ≠ None ->
        response (downloads_api w (downloadsUrl w nm)) = None ->
        outcome (estimate w (Some e)) = Thrown (TypeError "statusCode" "undefined"))
       /\ (error (downloads_api w (downloadsUrl w nm)) = None ->
           json (body (downloads_api w (downloadsUrl w nm))) = Json None ->
           outcome (estimate w (Some e)) = Thrown (TypeError_in "downloads" "null")))
  /\ (forall i d,
       outcome (estimateRepo w (repository e)) = Done i -> gt i zero = true ->
       outcome (estimateDownloadsLastYear w nm) = Done d -> gt (mul i d) zero = true ->
       (error (registry_api w (registryUrl nm)) ≠ None ->
        response (registry_api w (registryUrl nm)) = None ->
        outcome (estimate w (Some e)) = Thrown (TypeError "statusCode" "undefined"))
       /\ (error (registry_api w (registryUrl nm)) = None ->
           json (body (registry_api w (registryUrl nm))) = Json None ->
           outcome (estimate w (Some e)) = Thrown (TypeError "versions" "null"))).
Proof.
  intros Hname Hnm. rewrite (estimate_named w nm e Hname Hnm), waterfall_outcome.
  split; [|split].
  - intros owner name Hlocated Herr Hjson.
    rewrite (estimateRepo_outcome w _ owner name Hlocated). cbv zeta.
    by rewrite Herr, Hjson.
  - intros i Hrepo Hi. rewrite Hrepo, Hi, estimateDownloadsLastYear_outcome. cbv zeta.
    split.
    + intros Herr Hresponse. rewrite Hresponse. by destruct (error _).
    + intros Herr Hjson. by rewrite Herr, Hjson.
  - intros i d Hrepo Hi Hdown Hid. rewrite Hrepo, Hi, Hdown, Hid. cbv zeta. split.
    + intros Herr Hresponse. rewrite Hresponse. by destruct (error _).
    + intros Herr Hjson. by rewrite Herr, Hjson.
Qed.

(** Bodies that are [null]: of the issues, and of the downloads. *)
Lemma estimate_exceptions_witness :
  outcome (estimate (with_issues sample_world (reply_ok "null" None)) (Some sample_entry))
  = Thrown "TypeError: Cannot read property 'forEach' of null"
  /\ outcome (estimate (with_downloads sample_world (reply_ok "null" None))
                (Some sample_entry))
     = Thrown "TypeError: Cannot use 'in' operator to search for 'downloads' in null".
Proof.
  split.
  - destruct (estimate_exceptions (with_issues sample_world (reply_ok "null" None))
                sample_entry "pkg") as (H & _); [reflexivity|discriminate|].
    apply (H "owner" "repo"); reflexivity.
  - destruct (estimate_exceptions (with_downloads sample_world (reply_ok "null" None))
                sample_entry "pkg") as (_ & H & _); [reflexivity|discriminate|].
    destruct (H (Finite (1 - Qc_of_Z 2 / Qc_of_Z 3))) as [_ H']; [reflexivity..|].
    by apply H'.
Defined.

(** ** Positive scores and infinite ones *)

Section Signs.
Local Open Scope Qc_scope.

Lemma positive_fraction (s : number) :
  minus_infinity_or_fraction s -> gt s zero = true ->
  exists q, s = Finite q /\ 0 < q < 1.
Proof. intros [->|[->|H]]; [done..|]. by intros _. Qed.

Lemma fraction_positive (q : Qc) : 0 < q -> gt (Finite q) zero = true.
Proof. apply gt_zero_finite. Qed.

Context (w : World) (e : PackageEntry) (nm : string).

Lemma positive_download_score (d : number) :
  outcome (estimateDownloadsLastYear w nm) = Done d -> gt d zero = true ->
  exists q, d = Finite q /\ 0 < q < 1.
Proof.
  intros Hdown Hd.
  destruct (estimateDownloadsLastYear_done w nm d Hdown) as [Hcases|[-> _]]; [|done].
  by apply positive_fraction.
Qed.

(** The three scores that are strictly positive, and their product. *)
Lemma waterfall_product (s : number) :
  outcome (waterfall w e nm) = Done s ->
  gt s zero = true \/ s = NegInf ->
  exists i d, outcome (estimateRepo w (repository e)) = Done (Finite i)
    /\ 0 < i ≤ 1
    /\ outcome (estimateDownloadsLastYear w nm) = Done d
    /\ (d = NegInf /\ s = NegInf
        \/ exists qd registryResponse v,
             d = Finite qd /\ 0 < qd < 1
             /\ error (registry_api w (registryUrl nm)) = None
             /\ json (body (registry_api w (registryUrl nm))) = Json (Some registryResponse)
             /\ outcome (estimateVersions (versions registryResponse)) = Done v
             /\ s = mul (Finite (i * qd)) v
             /\ 0 < i * qd < 1).
Proof.
  rewrite waterfall_outcome. intros Hs Hsign.
  assert (Done zero = Done s -> False) as Hzero.
  { intros [= <-]. by destruct Hsign. }
  destruct (outcome (estimateRepo w (repository e))) as [i| |] eqn:Hrepo; [|done..].
  destruct (estimateRepo_range w _ _ Hrepo) as (qi & -> & Hi0 & Hi1).
  destruct (gt (Finite qi) zero) eqn:Hi.
  2: { injection Hs as <-. destruct Hsign; congruence. }
  apply gt_zero_finite in Hi. exists qi.
  destruct (outcome (estimateDownloadsLastYear w nm)) as [d| |] eqn:Hdown; [|done..].
  exists d. do 3 (split; [done|]).
  destruct (estimateDownloadsLastYear_done w nm d Hdown)
    as [[->|[->|(qd & -> & Hd0 & Hd1)]]|[-> _]].
  2: { rewrite mul_zero_r in Hs. by destruct Hzero. }
  3: { rewrite mul_nan in Hs. injection Hs as <-. by destruct Hsign. }
  - rewrite mul_minus_infinity in Hs by done. injection Hs as <-. by left.
  - right. change (mul (Finite qi) (Finite qd)) with (Finite (qi * qd)) in Hs.
    pose proof (product_below qi qd Hi Hi1 Hd0 Hd1) as Hp.
    rewrite (fraction_positive _ (proj1 Hp)) in Hs. cbv zeta in Hs.
    destruct (error _); [by destruct (response _); [destruct Hzero|]|].
    destruct (json _) as [|[registryResponse|]]; [by destruct Hzero| |done].
    destruct (estimateVersions_done (versions registryResponse)) as (v & Hv & _).
    rewrite Hv in Hs. injection Hs as <-.
    by exists qd, registryResponse, v.
Qed.

Lemma waterfall_positive :
  (exists s, outcome (waterfall w e nm) = Done s /\ gt s zero = true)
  <-> (exists i, outcome (estimateRepo w (repository e)) = Done i /\ gt i zero = true)
      /\ (exists d, outcome (estimateDownloadsLastYear w nm) = Done d /\ gt d zero = true)
      /\ exists registryResponse,
           error (registry_api w (registryUrl nm)) = None
           /\ json (body (registry_api w (registryUrl nm))) = Json (Some registryResponse)
           /\ exists v, outcome (estimateVersions (versions registryResponse)) = Done v
                        /\ gt v zero = true.
Proof.
  split.
  - intros (s & Hs & Hpos).
    destruct (waterfall_product s Hs) as (i & d & Hrepo & [Hi _] & Hdown & Hrest);
      [by left|].
    destruct Hrest as [[_ ->]|(qd & r & v & -> & [Hd _] & Herr & Hjson & Hv & -> & Hp)];
      [done|].
    split; [|split].
    + eexists. split; [done|]. by apply fraction_positive.
    + eexists. split; [done|]. by apply fraction_positive.
    + exists r. do 2 (split; [done|]). exists v. split; [done|].
      destruct (estimateVersions_done (versions r)) as (v' & Hv' & Hcases).
      assert (v' = v) as -> by congruence.
      destruct Hcases as [->|[->|(qv & -> & Hv0 & _)]].
      * by rewrite mul_minus_infinity in Hpos by apply Hp.
      * by rewrite mul_zero_r in Hpos.
      * by apply fraction_positive.
  - intros ((i & Hrepo & Hi) & (d & Hdown & Hd) & r & Herr & Hjson & v & Hv & Hvpos).
    destruct (estimateRepo_range w _ _ Hrepo) as (qi & -> & _ & Hi1).
    apply gt_zero_finite in Hi.
    destruct (positive_download_score d Hdown Hd) as (qd & -> & Hd0 & Hd1).
    destruct (estimateVersions_done (versions r)) as (v' & Hv' & Hcases).
    assert (v' = v) as -> by congruence.
    destruct (positive_fraction v Hcases Hvpos) as (qv & -> & Hv0 & Hv1).
    pose proof (product_below qi qd Hi Hi1 Hd0 Hd1) as [Hp0 Hp1].
    exists (Finite (qi * qd * qv)). split.
    + rewrite waterfall_outcome, Hrepo, (fraction_positive _ Hi), Hdown.
      change (mul (Finite qi) (Finite qd)) with (Finite (qi * qd)).
      rewrite (fraction_positive _ Hp0). cbv zeta. by rewrite Herr, Hjson, Hv.
    + apply fraction_positive. by apply Qcmult_pos_pos.
Qed.

Lemma waterfall_minus_infinity :
  outcome (waterfall w e nm) = Done NegInf
  <-> (exists i, outcome (estimateRepo w (repository e)) = Done i /\ gt i zero = true)
      /\ (outcome (estimateDownloadsLastYear w nm) = Done NegInf
          \/ (exists d, outcome (estimateDownloadsLastYear w nm) = Done d
                        /\ gt d zero = true)
             /\ exists registryResponse,
                  error (registry_api w (registryUrl nm)) = None
                  /\ json (body (registry_api w (registryUrl nm)))
                     = Json (Some registryResponse)
                  /\ outcome (estimateVersions (versions registryResponse))
                     = Done NegInf).
Proof.
  split.
  - intros Hs.
    destruct (waterfall_product NegInf Hs) as (i & d & Hrepo & [Hi _] & Hdown & Hrest);
      [by right|].
    split; [eexists; split; [done|]; by apply fraction_positive|].
    destruct Hrest as [[-> _]|(qd & r & v & -> & [Hd _] & Herr & Hjson & Hv & Hmul & Hp)];
      [by left|].
    right. split; [eexists; split; [done|]; by apply fraction_positive|].
    exists r. do 2 (split; [done|]).
    destruct (estimateVersions_done (versions r)) as (v' & Hv' & Hcases).
    assert (v' = v) as -> by congruence.
    destruct Hcases as [->|[->|(qv & -> & _)]]; [done|by rewrite mul_zero_r in Hmul|done].
  - intros ((i & Hrepo & Hi) & Hrest).
    destruct (estimateRepo_range w _ _ Hrepo) as (qi & -> & _ & Hi1).
    rewrite waterfall_outcome, Hrepo, Hi. apply gt_zero_finite in Hi.
    destruct Hrest as [->|((d & Hdown & Hd) & r & Herr & Hjson & Hv)].
    + by rewrite mul_minus_infinity.
    + destruct (positive_download_score d Hdown Hd) as (qd & -> & Hd0 & Hd1).
      pose proof (product_below qi qd Hi Hi1 Hd0 Hd1) as [Hp0 Hp1].
      rewrite Hdown. change (mul (Finite qi) (Finite qd)) with (Finite (qi * qd)).
      rewrite (fraction_positive _ Hp0). cbv zeta. rewrite Herr, Hjson, Hv.
      by rewrite mul_minus_infinity.
Qed.

End Signs.

(** The consolidated score is strictly positive exactly when each of
    the three scores is: the issue score, the download score, and the
    version score of a registry reply that is fetched, parsed and not
    [null]. No stage that is skipped, fails or scores 0 leaves a
    positive score. *)
Theorem positive_score_iff (w : World) (e : PackageEntry) (nm : string) :
  name e = Some nm -> nm ≠ "" ->
  (exists s, outcome (estimate w (Some e)) = Done s /\ gt s zero = true)
  <-> (exists i, outcome (estimateRepo w (repository e)) = Done i /\ gt i zero = true)
      /\ (exists d, outcome (estimateDownloadsLastYear w nm) = Done d /\ gt d zero = true)
      /\ exists registryResponse,
           error (registry_api w (registryUrl nm)) = None
           /\ json (body (registry_api w (registryUrl nm))) = Json (Some registryResponse)
           /\ exists v, outcome (estimateVersions (versions registryResponse)) = Done v
                        /\ gt v zero = true.
Proof.
  intros Hname Hnm. rewrite (estimate_named w nm e Hname Hnm).
  apply waterfall_positive.
Qed.

Lemma positive_score_iff_witness :
  exists s, outcome (estimate sample_world (Some sample_entry)) = Done s
            /\ gt s zero = true.
Proof.
  apply (positive_score_iff sample_world sample_entry "pkg"); [reflexivity|discriminate|].
  split; [|split].
  - exists (Finite (1 - Qc_of_Z 2 / Qc_of_Z 3)). split; [reflexivity|by vm_compute].
  - exists (Finite (1 - 1 / Qc_of_Z 999)). split; [reflexivity|by vm_compute].
  - exists {| versions := Some sample_versions |}. do 2 (split; [reflexivity|]).
    exists (Finite (1 - 1 / Qc_of_Z 4)). split; [reflexivity|by vm_compute].
Defined.

(** In terms of the replies: the consolidated score is strictly positive
    exactly when the repository is located and its issue body holds at
    least one value that is not an open issue (the values of a body that
    is not a list count as well), every sample of the download series
    has its count and the counts sum to 2 or more, and the registry
    lists 2 versions or more. *)
Theorem positive_score_replies (w : World) (e : PackageEntry) (nm : string) :
  name e = Some nm -> nm ≠ "" ->
  (exists s, outcome (estimate w (Some e)) = Done s /\ gt s zero = true)
  <-> (exists owner name issues,
         outcome (extractRepoInfo (repository e)) = Done (InfoValid owner name)
         /\ error (issues_api w (issuesUrl owner name)) = None
         /\ json (body (issues_api w (issuesUrl owner name))) = Json (Some issues)
         /\ length (open_issues issues) < length issues)
      /\ (exists series,
            error (downloads_api w (downloadsUrl w nm)) = None
            /\ json (body (downloads_api w (downloadsUrl w nm)))
               = Json (Some {| downloads := Some series |})
            /\ numeric series
            /\ (2 <= total_downloads series)%N)
      /\ (exists m,
            error (registry_api w (registryUrl nm)) = None
            /\ json (body (registry_api w (registryUrl nm)))
               = Json (Some {| versions := Some m |})
            /\ 2 <= size m).
Proof.
  intros Hname Hnm. rewrite (estimate_named w nm e Hname Hnm), waterfall_positive.
  rewrite estimateRepo_positive_iff, estimateDownloadsLastYear_positive_iff.
  do 2 (apply and_iff_compat_l). split.
  - intros (r & Herr & Hjson & Hv).
    apply estimateVersions_positive_iff in Hv as (m & Hm & Hsize).
    exists m. destruct r as [vs]. cbn [versions] in Hm. by subst vs.
  - intros (m & Herr & Hjson & Hsize). eexists. do 2 (split; [done|]).
    apply estimateVersions_positive_iff. by exists m.
Qed.

(** The error object of the tracker, two values without a state, with
    the downloads and the versions of the sample. *)
Lemma positive_score_replies_witness :
  exists s,
    outcome (estimate
               (with_issues sample_world
                  (reply_ok "{...}" (Some [ {| state := None |}; {| state := None |} ])))
               (Some sample_entry)) = Done s
    /\ gt s zero = true.
Proof.
  apply (positive_score_replies _ sample_entry "pkg"); [reflexivity|discriminate|].
  split; [|split].
  - exists "owner", "repo", [ {| state := None |}; {| state := None |} ].
    repeat split. vm_compute. lia.
  - exists [ {| sample_downloads := Some 900%N |}; {| sample_downloads := Some 99%N |} ].
    repeat split; [repeat constructor; by eexists|by vm_compute].
  - exists sample_versions. repeat split. vm_compute. lia.
Defined.

(** The consolidated score is minus infinity exactly when the issue
    score is strictly positive and either the download series sums to
    0, or it sums to 2 or more and the registry lists no version; every
    sample of the series having its count. *)
Theorem minus_infinity_iff (w : World) (e : PackageEntry) (nm : string) :
  name e = Some nm -> nm ≠ "" ->
  outcome (estimate w (Some e)) = Done NegInf
  <-> (exists owner name issues,
         outcome (extractRepoInfo (repository e)) = Done (InfoValid owner name)
         /\ error (issues_api w (issuesUrl owner name)) = None
         /\ json (body (issues_api w (issuesUrl owner name))) = Json (Some issues)
         /\ length (open_issues issues) < length issues)
      /\ ((exists series,
             error (downloads_api w (downloadsUrl w nm)) = None
             /\ json (body (downloads_api w (downloadsUrl w nm)))
                = Json (Some {| downloads := Some series |})
             /\ numeric series
             /\ total_downloads series = 0%N)
          \/ (exists series,
                error (downloads_api w (downloadsUrl w nm)) = None
                /\ json (body (downloads_api w (downloadsUrl w nm)))
                   = Json (Some {| downloads := Some series |})
                /\ numeric series
                /\ (2 <= total_downloads series)%N)
             /\ error (registry_api w (registryUrl nm)) = None
             /\ json (body (registry_api w (registryUrl nm)))
                = Json (Some {| versions := Some ∅ |})).
Proof.
  intros Hname Hnm. rewrite (estimate_named w nm e Hname Hnm), waterfall_minus_infinity.
  rewrite estimateRepo_positive_iff, estimateDownloadsLastYear_positive_iff,
    estimateDownloadsLastYear_minus_infinity.
  apply and_iff_compat_l, or_iff_compat_l, and_iff_compat_l. split.
  - intros (r & Herr & Hjson & Hv).
    apply estimateVersions_minus_infinity in Hv.
    destruct r as [vs]. cbn [versions] in Hv. by subst vs.
  - intros [Herr Hjson]. eexists. by do 2 (split; [done|]).
Qed.

Lemma minus_infinity_iff_witness :
  outcome (estimate (with_downloads sample_world
                       (reply_ok "{...}" (Some {| downloads := Some [] |})))
             (Some sample_entry))
  = Done NegInf.
Proof.
  apply (minus_infinity_iff _ sample_entry "pkg"); [reflexivity|discriminate|].
  split.
  - exists "owner", "repo", sample_issues. repeat split. vm_compute. lia.
  - left. exists []. repeat split. constructor.
Defined.

(** ** The requests that are sent *)

Lemma requests_app (t1 t2 : list event) :
  requests (t1 ++ t2) = requests t1 ++ requests t2.
Proof. apply omap_app. Qed.

Lemma requests_quiet (t : list event) : quiet t = true -> requests t = [].
Proof.
  induction t as [|[service uri|message arguments] t IH]; [done|done|].
  intros H. by apply IH.
Qed.

Lemma requests_bind {A B} (m : run A) (f : A -> run B) :
  requests (trace (m ≫= f))
  = requests (trace m)
    ++ match outcome m with
       | Done a => requests (trace (f a))
       | _ => []
       end.
Proof.
  rewrite trace_bind. destruct (outcome m); by rewrite ?requests_app, ?app_nil_r.
Qed.

(** [estimateRepo] sends one request when the repository is located,
    and none otherwise. *)
Lemma estimateRepo_requests (w : World) (repo : option RepoDescriptor) :
  requests (trace (estimateRepo w repo))
  = match outcome (extractRepoInfo repo) with
    | Done (InfoValid owner name) => [(GithubIssues, issuesUrl owner name)]
    | _ => []
    end.
Proof.
  unfold estimateRepo.
  rewrite requests_bind, (requests_quiet _ (extractRepoInfo_quiet repo)).
  destruct (outcome (extractRepoInfo repo)) as [[| |owner name]| |]; try done.
  cbv zeta. rewrite requests_bind. cbn [request outcome trace].
  destruct (error _); [done|].
  destruct (json _) as [|[issues|]]; [done| |done].
  rewrite requests_bind.
  destruct (forEach_count_issue issues (Counters 0 0 0)) as (c & -> & _ & _ & Hc).
  rewrite (requests_quiet _ Hc). by case_decide.
Qed.

Lemma estimateDownloadsLastYear_requests (w : World) (nm : string) :
  requests (trace (estimateDownloadsLastYear w nm)) = [(NpmStat, downloadsUrl w nm)].
Proof.
  rewrite estimateDownloadsLastYear_trace. cbv zeta.
  destruct (error _); [|done]. destruct (response _); [|done]. by case_decide.
Qed.

Lemma task_downloads_requests (w : World) (nm : string) (q : number) :
  requests (trace (task_downloads w nm q))
  = if gt q zero then [(NpmStat, downloadsUrl w nm)] else [].
Proof.
  unfold task_downloads. destruct (gt q zero); [|done].
  rewrite requests_bind, estimateDownloadsLastYear_requests.
  by destruct (outcome _).
Qed.

Lemma task_registry_requests (w : World) (nm : string) (q : number) :
  requests (trace (task_registry w nm q))
  = if gt q zero then [(NpmRegistry, registryUrl nm)] else [].
Proof.
  unfold task_registry. destruct (gt q zero); [|done].
  cbv zeta. rewrite requests_bind. cbn [request outcome trace].
  destruct (error _).
  - destruct (response _); [|done]. by case_decide.
  - by destruct (json _).
Qed.

Lemma task_versions_requests (passed : number * option RegistryResponse) :
  requests (trace (task_versions passed)) = [].
Proof.
  destruct passed as [q [r|]]; unfold task_versions; destruct (gt q zero); try done.
  by destruct (versions r).
Qed.

(** What remains of the pipeline after the issue score. *)
Lemma after_repo_requests (w : World) (nm : string) (q : number) :
  requests (trace (consolidatedQuality ← task_downloads w nm q;
                   passed ← task_registry w nm consolidatedQuality;
                   task_versions passed))
  `prefix_of` (if gt q zero
               then [(NpmStat, downloadsUrl w nm); (NpmRegistry, registryUrl nm)]
               else []).
Proof.
  rewrite requests_bind, task_downloads_requests.
  assert (forall q',
    requests (trace (passed ← task_registry w nm q'; task_versions passed))
    = if gt q' zero then [(NpmRegistry, registryUrl nm)] else []) as Hregistry.
  { intros q'. rewrite requests_bind, task_registry_requests.
    destruct (outcome _); rewrite ?task_versions_requests; by destruct (gt q' zero). }
  destruct (gt q zero) eqn:Hq.
  - destruct (outcome (task_downloads w nm q)) as [q'| |].
    + rewrite Hregistry. destruct (gt q' zero); [done|]. by eexists [_].
    + by eexists [_].
    + by eexists [_].
  - rewrite task_downloads_skip by done. cbn [outcome mret run_ret].
    by rewrite Hregistry, Hq.
Qed.

(** [estimate] sends at most three requests: for the issues, then for
    the downloads, then for the registry, each at its URL and none
    without the one before. An entry whose repository is not located
    sends none. *)
Theorem requests_in_order (w : World) (e : PackageEntry) (nm : string) :
  name e = Some nm -> nm ≠ "" ->
  requests (trace (estimate w (Some e)))
  `prefix_of`
  match outcome (extractRepoInfo (repository e)) with
  | Done (InfoValid owner name) =>
      [(GithubIssues, issuesUrl owner name);
       (NpmStat, downloadsUrl w nm);
       (NpmRegistry, registryUrl nm)]
  | _ => []
  end.
Proof.
  intros Hname Hnm. rewrite (estimate_named w nm e Hname Hnm). unfold waterfall.
  rewrite requests_bind. unfold task_repo. rewrite estimateRepo_requests.
  destruct (outcome (extractRepoInfo (repository e))) as [[| |owner name]| |] eqn:Hinfo.
  - rewrite (estimateRepo_unlocated w _ _ Hinfo) by auto. cbn [outcome app].
    apply (after_repo_requests w nm zero).
  - rewrite (estimateRepo_unlocated w _ _ Hinfo) by auto. cbn [outcome app].
    apply (after_repo_requests w nm zero).
  - destruct (outcome (estimateRepo w (repository e))) as [i| |].
    + apply (prefix_app [_]). etrans; [apply after_repo_requests|].
      destruct (gt i zero); [done|apply prefix_nil].
    + by eexists [_; _].
    + by eexists [_; _].
  - by destruct (extractRepoInfo_done (repository e)) as [info Hdone]; rewrite Hdone in Hinfo.
  - by destruct (extractRepoInfo_done (repository e)) as [info Hdone]; rewrite Hdone in Hinfo.
Qed.

Lemma requests_in_order_witness :
  requests (trace (estimate closed_world (Some sample_entry)))
  `prefix_of`
  [(GithubIssues, "https://api.github.com/repos/owner/repo/issues?per_page=1000&state=all");
   (NpmStat, "http://npm-stat.com/downloads/range/2013-06-01:2014-06-01/pkg");
   (NpmRegistry, "http://registry.npmjs.org/pkg")].
Proof.
  apply (requests_in_order closed_world sample_entry "pkg"); [reflexivity|discriminate].
Defined.

(** ** More versions *)

Section Growth.
Local Open Scope Qc_scope.

Lemma inverse_antitone (a b : Qc) : 0 < a -> a < b -> 1 / b < 1 / a.
Proof.
  intros Ha Hab.
  assert (0 < b) as Hb by (by apply Qclt_trans with a).
  assert (a ≠ 0) as Ha' by (intros ->; by apply (Qclt_not_eq 0 0)).
  assert (b ≠ 0) as Hb' by (intros ->; by apply (Qclt_not_eq 0 0)).
  replace (1 / b) with (a * (/ a * / b)) by (by field).
  replace (1 / a) with (b * (/ a * / b)) by (by field).
  apply (proj1 (Qcmult_lt_mono_pos_r _ _ _ (Qcmult_pos_pos _ _ (Qcinv_pos _ Ha)
                                              (Qcinv_pos _ Hb)))), Hab.
Qed.

(** [1 - 1 / n] grows with [n] from 1 on. *)
Lemma score_inverse_mono (n n' : Z) :
  (1 <= n < n')%Z ->
  exists q q', sub one (div one (of_Z n)) = Finite q
               /\ sub one (div one (of_Z n')) = Finite q'
               /\ 0 ≤ q < q'.
Proof.
  intros [Hn Hlt]. rewrite !score_inverse by lia. eexists _, _. do 2 (split; [done|]).
  split; [by apply score_inverse_bounds|].
  apply one_minus_lt, inverse_antitone.
  - apply Qc_of_Z_pos. lia.
  - by apply (proj1 (Z2Qc_inj_lt _ _)).
Qed.

(** A version that is new raises the version score of a package that
    has versions. *)
Theorem new_version_raises_score (m : VersionSet) (version : string) :
  m ≠ ∅ -> m !! version = None ->
  exists v v',
    outcome (estimateVersions (Some m)) = Done (Finite v)
    /\ outcome (estimateVersions (Some (<[version := tt]> m))) = Done (Finite v')
    /\ 0 ≤ v < v'.
Proof.
  intros Hne Hnew.
  assert (size m ≠ 0%nat) as Hsize by (by rewrite map_size_empty_iff).
  destruct (score_inverse_mono (Z.of_nat (size m)) (Z.of_nat (size (<[version := tt]> m))))
    as (v & v' & Hv & Hv' & Hlt).
  { rewrite map_size_insert_None by done. lia. }
  exists v, v'. repeat split; try apply Hlt.
  - exact (f_equal Done Hv).
  - exact (f_equal Done Hv').
Qed.

Lemma new_version_raises_score_witness :
  exists v v',
    outcome (estimateVersions (Some single_version)) = Done (Finite v)
    /\ outcome (estimateVersions (Some (<["0.2.0" := tt]> single_version)))
       = Done (Finite v')
    /\ 0 ≤ v < v'.
Proof.
  apply new_version_raises_score; [|by vm_compute].
  intros H. apply (f_equal size) in H. vm_compute in H. discriminate.
Defined.

End Growth.

(** ** Entries without a repository on GitHub *)

(** An entry with a name whose repository is absent, or lacks its type
    or its URL, scores 0 without a request nor a log; one whose
    repository is of another type than [git] scores 0 as well, with the
    type logged as an error. Downloads and versions are not looked at. *)
Theorem estimate_without_git_repository (w : World) (e : PackageEntry) (nm : string) :
  name e = Some nm -> nm ≠ "" ->
  (repository e = None
   \/ (exists r, repository e = Some r
                 /\ (falsy (type r) = true \/ falsy (url r) = true)) ->
   estimate w (Some e) = Run (Done zero) [])
  /\ (forall r ty,
        repository e = Some r -> type r = Some ty -> ty ≠ "" -> ty ≠ "git" ->
        falsy (url r) = false ->
        estimate w (Some e)
        = Run (Done zero) [LogError "Invalid repo type: %s" [ty]]).
Proof.
  intros Hname Hnm. rewrite (estimate_named w nm e Hname Hnm).
  assert (forall t, extractRepoInfo (repository e) = Run (Done InfoNull) t ->
                    waterfall w e nm = Run (Done zero) t) as Hnull.
  { intros t Hinfo. rewrite waterfall_stages, !bind_assoc. unfold task_repo.
    rewrite (estimateRepo_unlocated w _ InfoNull), Hinfo by (by rewrite ?Hinfo; auto).
    cbn [trace]. rewrite (bind_mret_done _ _ zero zero); [done..|].
    rewrite <- bind_assoc. by apply after_repo_skip. }
  split.
  - intros Hrepo. apply Hnull. unfold extractRepoInfo.
    destruct Hrepo as [->|(r & -> & [Hfalsy|Hfalsy])]; [done|by rewrite Hfalsy..|].
    rewrite Hfalsy. by destruct (falsy (type r)).
  - intros r ty Hrepo Hty Hne Hgit Hurl. apply Hnull. unfold extractRepoInfo.
    rewrite Hrepo, Hty, Hurl. destruct ty; [done|]. cbn [falsy orb default from_option].
    unfold id. by rewrite decide_True.
Qed.

Lemma estimate_without_git_repository_witness :
  estimate sample_world
    (Some {| name := Some "pkg";
             repository := Some {| type := Some "svn";
                                   url := Some "http://svn.example.org/pkg" |} |})
  = Run (Done zero) [LogError "Invalid repo type: %s" ["svn"]].
Proof.
  destruct (estimate_without_git_repository sample_world
              {| name := Some "pkg";
                 repository := Some {| type := Some "svn";
                                       url := Some "http://svn.example.org/pkg" |} |}
              "pkg") as [_ H]; [reflexivity|discriminate|].
  apply (H {| type := Some "svn"; url := Some "http://svn.example.org/pkg" |} "svn");
    try reflexivity; discriminate.
Defined.

(** ** The issue score as a ceiling *)

Section Ceiling.
Local Open Scope Qc_scope.

(** The downloads and the versions only lower the score: the
    consolidated score, when finite, is at most the issue score. *)
Theorem issue_score_is_ceiling (w : World) (e : PackageEntry) (nm : string) (i q : Qc) :
  name e = Some nm -> nm ≠ "" ->
  outcome (estimateRepo w (repository e)) = Done (Finite i) ->
  outcome (estimate w (Some e)) = Done (Finite q) ->
  q <= i.
Proof.
  intros Hname Hnm Hrepo. rewrite (estimate_named w nm e Hname Hnm), waterfall_outcome, Hrepo.
  destruct (estimateRepo_range w _ _ Hrepo) as (i' & [= <-] & Hi0 & Hi1).
  destruct (gt (Finite i) zero) eqn:Hi; [|by intros [= <-]].
  assert (Done zero = Done (Finite q) -> q <= i) as Hzero by (by intros [= <-]).
  destruct (outcome (estimateDownloadsLastYear w nm)) as [d| |] eqn:Hdown; [|done..].
  destruct (estimateDownloadsLastYear_done w nm d Hdown)
    as [[->|[->|(qd & -> & Hd0 & Hd1)]]|[-> _]].
  - by rewrite mul_minus_infinity by (by apply gt_zero_finite).
  - by rewrite mul_zero_r.
  - change (mul (Finite i) (Finite qd)) with (Finite (i * qd)).
    destruct (gt (Finite (i * qd)) zero) eqn:Hp.
    2: { intros [= <-]. apply product_at_most; [done|by apply Qclt_le_weak]. }
    cbv zeta. destruct (error _); [by destruct (response _)|].
    destruct (json _) as [|[registryResponse|]]; [done| |done].
    destruct (estimateVersions_done (versions registryResponse))
      as (v & -> & [->|[->|(qv & -> & Hv0 & Hv1)]]).
    + by rewrite mul_minus_infinity by (by apply gt_zero_finite).
    + by rewrite mul_zero_r.
    + change (mul (Finite (i * qd)) (Finite qv)) with (Finite (i * qd * qv)).
      intros [= <-]. rewrite <- Qcmult_assoc. apply product_at_most; [done|].
      apply Qclt_le_weak, product_below; try done. by apply Qclt_le_weak.
  - by rewrite mul_nan.
Qed.

Lemma issue_score_is_ceiling_witness :
  (1 - Qc_of_Z 2 / Qc_of_Z 3) * (1 - 1 / Qc_of_Z 999) * (1 - 1 / Qc_of_Z 4)
  <= 1 - Qc_of_Z 2 / Qc_of_Z 3.
Proof.
  apply (issue_score_is_ceiling sample_world sample_entry "pkg");
    [reflexivity|discriminate|reflexivity|by_evaluation].
Defined.

End Ceiling.

(** ** The registry that cannot be read *)

(** What the registry stage does with a transport error that comes
    with a response. *)
Lemma task_registry_error (w : World) (nm err : string) (r : Response) (q : number) :
  gt q zero = true ->
  error (registry_api w (registryUrl nm)) = Some err ->
  response (registry_api w (registryUrl nm)) = Some r ->
  task_registry w nm q
  = Run (Done (zero, None))
      (Request NpmRegistry (registryUrl nm)
       :: if decide (statusCode r = 404%N) then []
          else [LogError ("Could not read registry for " +:+ nm +:+ " ("
                          +:+ registryUrl nm +:+ "): " +:+ err) []]).
Proof.
  intros Hq Herr Hresponse. unfold task_registry. rewrite Hq. cbv zeta.
  rewrite (bind_done (request NpmRegistry (registry_api w) (registryUrl nm)) _ _ eq_refl).
  cbn [request outcome trace]. rewrite Herr, Hresponse. by case_decide.
Qed.

(** When the issues and the downloads give a product that is strictly
    positive and the fetch of the registry ends in an error that comes
    with a response, the consolidated score is 0: the product is lost.
    The request to the registry is the last event but for the error,
    which is logged unless the status of the response is 404. *)
Theorem registry_transport_error (w : World) (e : PackageEntry) (nm err : string)
    (r : Response) (q : number) :
  name e = Some nm -> nm ≠ "" ->
  outcome (task_repo w e ≫= task_downloads w nm) = Done q -> gt q zero = true ->
  error (registry_api w (registryUrl nm)) = Some err ->
  response (registry_api w (registryUrl nm)) = Some r ->
  estimate w (Some e)
  = Run (Done zero)
      (trace (task_repo w e ≫= task_downloads w nm)
       ++ Request NpmRegistry (registryUrl nm)
          :: if decide (statusCode r = 404%N) then []
             else [LogError ("Could not read registry for " +:+ nm +:+ " ("
                             +:+ registryUrl nm +:+ "): " +:+ err) []]).
Proof.
  intros Hname Hnm Hproduct Hq Herr Hresponse.
  rewrite (estimate_named w nm e Hname Hnm), waterfall_stages.
  rewrite (bind_done _ (task_registry w nm) q Hproduct).
  rewrite (task_registry_error w nm err r q Hq Herr Hresponse). cbn [outcome trace].
  rewrite (bind_mret_done _ task_versions (zero, None) zero); [done..|].
  by apply task_versions_skip.
Qed.

Lemma registry_transport_error_witness :
  estimate (with_registry sample_world (reply_error 503)) (Some sample_entry)
  = Run (Done zero)
      [Request GithubIssues
         "https://api.github.com/repos/owner/repo/issues?per_page=1000&state=all";
       Request NpmStat "http://npm-stat.com/downloads/range/2013-06-01:2014-06-01/pkg";
       Request NpmRegistry "http://registry.npmjs.org/pkg";
       LogError "Could not read registry for pkg (http://registry.npmjs.org/pkg): Error: socket hang up" []].
Proof.
  apply (registry_transport_error (with_registry sample_world (reply_error 503))
           sample_entry "pkg" "Error: socket hang up" {| statusCode := 503 |}
           (Finite ((1 - Qc_of_Z 2 / Qc_of_Z 3) * (1 - 1 / Qc_of_Z 999))));
    try reflexivity; try discriminate; by_evaluation.
Defined.
